(** * Template coverage of bank messages: a model of [coverage.py]

    The script normalises message texts and sender names, turns every
    template of a sender into an anchored regular expression, checks each
    message against the templates of its sender on a thread pool and
    aggregates the outcome per sender.

    Conventions of the embedding.
    - A Python [str] is a [list ascii].  Only the ASCII repertoire is
      modelled: code points 128..255 of [ascii] stand for characters with
      no case and no blank property.  What is stated of letter case is
      stated of the letters A to Z and a to z, or of texts below code 128.
    - A float is the rational it denotes, an infinity or NaN; the quotient
      of two integers is rounded to 53 binary digits, ties to even.
    - A spreadsheet cell is a [cell]: a string, the null value (NaN) or any
      other value together with its [str()] rendering.
    - The registry [templates] and the summary are [gmap]s.
    - An exception is the left summand of a sum type. *)

From Stdlib Require Import Ascii String List Bool Arith Lia QArith Qabs.
From stdpp Require Import gmap strings list fin_maps.
Import ListNotations.

Close Scope Q_scope.
Local Open Scope nat_scope.
Local Open Scope list_scope.

(** ** Texts and characters *)

Definition txt (s : string) : list ascii := list_ascii_of_string s.

Definition code (c : ascii) : nat := nat_of_ascii c.

Definition between (lo hi : nat) (c : ascii) : bool :=
  (lo <=? code c) && (code c <=? hi).

(** [str.isspace] and the class [\s] on ASCII: TAB, LF, VT, FF, CR, the
    four separators FS, GS, RS, US and the space. *)
Definition is_space (c : ascii) : bool := between 9 13 c || between 28 32 c.

(** [str.lower] and [str.upper], character by character. *)
Definition lower_char (c : ascii) : ascii :=
  if between 65 90 c then ascii_of_nat (code c + 32) else c.

Definition upper_char (c : ascii) : ascii :=
  if between 97 122 c then ascii_of_nat (code c - 32) else c.

Definition lower (s : list ascii) : list ascii := map lower_char s.
Definition upper (s : list ascii) : list ascii := map upper_char s.

(** [str.strip]: blanks are removed at both ends. *)
Fixpoint lstrip (s : list ascii) : list ascii :=
  match s with
  | [] => []
  | c :: s' => if is_space c then lstrip s' else s
  end.

Definition rstrip (s : list ascii) : list ascii := rev (lstrip (rev s)).

Definition strip (s : list ascii) : list ascii := rstrip (lstrip s).

(** [re.sub(r'\s+', ' ', text)]: every maximal run of blanks becomes one
    space.  [in_run] tells that the previous character was a blank whose
    run has already been replaced. *)
Fixpoint collapse_from (in_run : bool) (s : list ascii) : list ascii :=
  match s with
  | [] => []
  | c :: s' =>
      if is_space c
      then if in_run then collapse_from true s'
           else " "%char :: collapse_from true s'
      else c :: collapse_from false s'
  end.

Definition sub_spaces (s : list ascii) : list ascii := collapse_from false s.

(** [str.startswith], [str.endswith]. *)
Fixpoint startswith (p s : list ascii) : bool :=
  match p, s with
  | [], _ => true
  | _ :: _, [] => false
  | a :: p', c :: s' => Ascii.eqb a c && startswith p' s'
  end.

Definition endswith (p s : list ascii) : bool := startswith (rev p) (rev s).

(** [str.replace(old, new)] for a non-empty [old]: occurrences are replaced
    from left to right and do not overlap.  [skip] counts the characters of
    the occurrence just replaced that are still to be passed over. *)
Fixpoint replace_from (old new : list ascii) (skip : nat) (s : list ascii)
  : list ascii :=
  match s with
  | [] => []
  | c :: s' =>
      match skip with
      | S k => replace_from old new k s'
      | O =>
          if startswith old s
          then new ++ replace_from old new (length old - 1) s'
          else c :: replace_from old new 0 s'
      end
  end.

Definition replace (old new s : list ascii) : list ascii :=
  replace_from old new 0 s.

(** ** Cells *)

Inductive cell :=
| Str (s : list ascii)
| NaN
| Other (repr : list ascii).

(** [str(x)] *)
Definition py_str (x : cell) : list ascii :=
  match x with
  | Str s => s
  | NaN => txt "nan"
  | Other r => r
  end.

(** [pd.isna(x)] *)
Definition isna (x : cell) : bool :=
  match x with NaN => true | _ => false end.

(** ** The normaliser, [normalize] *)

(** Lines 18 to 20: lower case, strip, blanks collapsed. *)
Definition clean (x : cell) : list ascii :=
  sub_spaces (strip (lower (py_str x))).

Definition LF : ascii := ascii_of_nat 10.

(** [re.split(r'(<.*?>)', text)].  The pattern matches from a [<] to the
    nearest [>] that can be reached without crossing a line feed, which [.]
    refuses.  [find_close] answers the characters between the two marks. *)
Fixpoint find_close (s : list ascii) : option (list ascii) :=
  match s with
  | [] => None
  | c :: s' =>
      if Ascii.eqb c ">" then Some []
      else if Ascii.eqb c LF then None
      else option_map (cons c) (find_close s')
  end.

(** The parts alternate: text, captured mark, text, ..., text.  [lit] is the
    text read since the last mark and [skip] the number of characters of the
    mark just emitted that are still to be passed over. *)
Fixpoint split_from (skip : nat) (lit s : list ascii) : list (list ascii) :=
  match s with
  | [] => [lit]
  | c :: s' =>
      match skip with
      | S k => split_from k lit s'
      | O =>
          if Ascii.eqb c "<"
          then match find_close s' with
               | Some inner =>
                   lit :: ("<"%char :: inner ++ [">"%char])
                       :: split_from (S (length inner)) [] s'
               | None => split_from 0 (lit ++ [c]) s'
               end
          else split_from 0 (lit ++ [c]) s'
      end
  end.

Definition re_split (s : list ascii) : list (list ascii) := split_from 0 [] s.

(** [re.escape] (Python 3.7 and later): a backslash is put before each of
    the characters listed in [_special_chars_map]. *)
Definition special_chars : list ascii :=
  txt "()[]{}?*+-|^$\.&~# "
  ++ [ascii_of_nat 9; ascii_of_nat 10; ascii_of_nat 13; ascii_of_nat 11;
      ascii_of_nat 12].

Definition is_special (c : ascii) : bool := existsb (Ascii.eqb c) special_chars.

Definition escape_char (c : ascii) : list ascii :=
  if is_special c then ["\"%char; c] else [c].

Definition re_escape (s : list ascii) : list ascii := flat_map escape_char s.

(** The body of the loop of lines 27 to 39, for one part. *)
Definition fragment (part : list ascii) : list ascii :=
  if startswith (txt "<") part && endswith (txt ">") part
  then txt ".*?"
  else
    let escaped := re_escape part in
    let escaped := replace (txt "\ ") (txt "\s*") escaped in
    let escaped := replace (txt " ") (txt "\s*") escaped in
    escaped.

Definition normalize (text : cell) (is_template : bool) : list ascii :=
  let text := clean text in
  if is_template
  then
    let parts := re_split text in
    let pattern := fold_left (fun pattern part => pattern ++ fragment part) parts [] in
    txt "^" ++ pattern ++ txt "$"
  else text.

Arguments normalize : simpl never.

(** ** Sender keys *)

(** Line 48, on one string: [.str.upper().str.strip()]. *)
Definition sender_key (s : list ascii) : list ascii := strip (upper s).

(** The same accessor on a cell: what is not a string becomes null. *)
Definition str_upper_strip (x : cell) : cell :=
  match x with
  | Str s => Str (sender_key s)
  | _ => NaN
  end.

(** Line 54. *)
Definition bank_name (file : list ascii) : list ascii :=
  strip (replace (txt "_") (txt " ") (upper (replace (txt ".xlsx") [] file))).

(** Modelled from the spec: the canonical sender key of section 3,
    "uppercase, trim, collapse internal whitespace". *)
Definition spec_canonical_key (s : list ascii) : list ascii :=
  sub_spaces (strip (upper s)).

(** ** The regular expressions [normalize] can build

    [Re.compile] and [Re.fullmatch] model [re.compile] and
    [Pattern.fullmatch] on the syntax the compiler of templates emits:
    the two anchors, characters, escaped characters, [\s], [.] and the
    two stars.  On anything else [compile] answers [None], as it does on a
    malformed expression. *)
Module Re.

Inductive atom :=
| Lit (c : ascii)
| Dot
| Blank.

Inductive item :=
| Bol
| Eol
| One (a : atom)
| Star (a : atom)
| StarLazy (a : atom).

Inductive token :=
| TItem (i : item)
| TStar
| TQuest
| TBad.

Definition is_alnum (c : ascii) : bool :=
  between 48 57 c || between 65 90 c || between 97 122 c.

(** The character after a backslash. *)
Definition escaped (e : ascii) : token :=
  if Ascii.eqb e "s" then TItem (One Blank)
  else if is_alnum e then TBad
  else TItem (One (Lit e)).

Definition plain (c : ascii) : token :=
  if Ascii.eqb c "^" then TItem Bol
  else if Ascii.eqb c "$" then TItem Eol
  else if Ascii.eqb c "." then TItem (One Dot)
  else if Ascii.eqb c "*" then TStar
  else if Ascii.eqb c "?" then TQuest
  else if existsb (Ascii.eqb c) (txt "()[]{}+|") then TBad
  else TItem (One (Lit c)).

Fixpoint lex (s : list ascii) : list token :=
  match s with
  | [] => []
  | c :: s1 =>
      if Ascii.eqb c "\"
      then match s1 with
           | [] => [TBad]
           | e :: s2 => escaped e :: lex s2
           end
      else plain c :: lex s1
  end.

(** A star applies to the atom before it; a [?] after the star makes it
    lazy.  A quantifier with nothing to repeat is an error. *)
Fixpoint parse (ts : list token) : option (list item) :=
  match ts with
  | [] => Some []
  | TItem (One a) :: TStar :: TQuest :: ts' => cons (StarLazy a) <$> parse ts'
  | TItem (One a) :: TStar :: ts' => cons (Star a) <$> parse ts'
  | TItem i :: ts' => cons i <$> parse ts'
  | _ => None
  end.

Definition compile (s : list ascii) : option (list item) := parse (lex s).

Definition accepts (a : atom) (c : ascii) : bool :=
  match a with
  | Lit d => Ascii.eqb d c
  | Dot => negb (Ascii.eqb c LF)
  | Blank => is_space c
  end.

(** [$] holds at the end and before a final line feed. *)
Definition at_end (s : list ascii) : bool :=
  match s with
  | [] => true
  | [c] => Ascii.eqb c LF
  | _ => false
  end.

(** Backtracking search for a match of the whole of [s]; [bos] tells
    that no character has been consumed yet.  A greedy star tries one
    more repetition first, a lazy one tries the rest first. *)
Fixpoint run (p : list item) : bool -> list ascii -> bool :=
  match p with
  | [] => fun _ s => match s with [] => true | _ => false end
  | Bol :: p' => fun bos s => bos && run p' bos s
  | Eol :: p' => fun bos s => at_end s && run p' bos s
  | One a :: p' =>
      fun _ s =>
        match s with
        | [] => false
        | c :: s' => accepts a c && run p' false s'
        end
  | Star a :: p' =>
      fix star (bos : bool) (s : list ascii) : bool :=
        match s with
        | [] => run p' bos []
        | c :: s' => (accepts a c && star false s') || run p' bos s
        end
  | StarLazy a :: p' =>
      fix star (bos : bool) (s : list ascii) : bool :=
        run p' bos s
        || match s with
           | [] => false
           | c :: s' => accepts a c && star false s'
           end
  end.

Definition fullmatch (p : list item) (s : list ascii) : bool := run p true s.

End Re.

(** ** The pipeline, over any regular expression engine

    [re_compile] answers [None] where [re.compile] raises [re.error]. *)

Inductive exn := KeyError (key : string).

(** One record of [messages_df.to_dict('records')]: a field is [None] when
    the frame has no such column.  [message] is the column of that name
    once line 96 has renamed [Message]. *)
Record row := Row {
  casa_sender_name : option cell;
  message : option cell
}.

(** Line 48: the sender column is rewritten in place, when there is one. *)
Definition canon_sender (r : row) : row :=
  {| casa_sender_name := str_upper_strip <$> casa_sender_name r;
     message := message r |}.

(** What [pd.read_excel] gives for a file of templates: the header and the
    cells under the header named [template], if any. *)
Record workbook := Workbook {
  columns : list (list ascii);
  template_column : list cell
}.

(** Lines 57 to 64. *)
Definition raw_templates (df : workbook) : list cell :=
  let columns := map strip (columns df) in
  if existsb (fun c => bool_decide (c = txt "template")) columns
  then template_column df
  else map Str columns.

Record stats := Stats { total : nat; covered : nat }.

(** ** The quotient of two integer columns

    A float64 value: the rational it denotes, an infinity or NaN. *)
Inductive float64 :=
| Num (q : Q)
| Inf
| NotANumber.

(** The integer nearest to [n / d], the even one of the two when [n / d]
    lies half way, for [0 <= n] and [0 < d]. *)
Definition round_half_even (n d : Z) : Z :=
  let q := (n / d)%Z in
  let r := (n mod d)%Z in
  if (2 * r <? d)%Z then q
  else if (d <? 2 * r)%Z then (q + 1)%Z
  else if Z.even q then q else (q + 1)%Z.

(** The exponent [e] of the unit in the last place of [a / b], that is
    [2 ^ 52 <= a / (b * 2 ^ e) < 2 ^ 53], for [0 < a] and [0 < b]. *)
Definition exponent (a b : Z) : Z :=
  let k := (Z.log2 a - Z.log2 b)%Z in
  if (b * 2 ^ Z.max 0 k <=? a * 2 ^ Z.max 0 (- k))%Z
  then (k - 52)%Z else (k - 53)%Z.

(** [a / b] of two int64 columns: both operands become floats, which
    changes nothing below [2 ^ 53], and the quotient is rounded to the
    nearest float, ties to even.  No quotient of two such integers leaves
    the range of the normal floats.  A zero divisor gives NaN or an
    infinity, no exception. *)
Definition true_div (a b : Z) : float64 :=
  if (b =? 0)%Z then if (a =? 0)%Z then NotANumber else Inf
  else if (a =? 0)%Z then Num 0
  else
    let e := exponent a b in
    let m := round_half_even (a * 2 ^ Z.max 0 (- e)) (b * 2 ^ Z.max 0 e) in
    Num (Qred (inject_Z (m * 2 ^ Z.max 0 e) / inject_Z (2 ^ Z.max 0 (- e)))).

(** Line 118. *)
Definition coverage_pct (e : stats) : float64 :=
  true_div (100 * Z.of_nat (covered e)) (Z.of_nat (total e)).

Section Coverage.

Context {pattern : Type}.
Variable re_compile : list ascii -> option pattern.
Variable fullmatch : pattern -> list ascii -> bool.

(** Lines 67 to 74. *)
Definition compiled_templates (raw : list cell) : list pattern :=
  fold_left
    (fun compiled t =>
       if isna t then compiled
       else
         let pattern_str := normalize t true in
         match re_compile pattern_str with
         | Some p => compiled ++ [p]
         | None => compiled
         end)
    raw [].

(** Lines 50 to 79.  Each entry of the listing is a file name with the
    outcome of reading it: [None] when lines 56 to 64 raise. *)
Definition load_templates (listing : list (list ascii * option workbook))
  : gmap (list ascii) (list pattern) :=
  fold_left
    (fun templates '(file, read) =>
       if endswith (txt ".xlsx") file
       then match read with
            | Some df =>
                <[bank_name file := compiled_templates (raw_templates df)]>
                  templates
            | None => templates
            end
       else templates)
    listing ∅.

Variable templates : gmap (list ascii) (list pattern).

(** Lines 81 to 87. *)
Definition is_covered (message : cell) (templates_list : list pattern) : bool :=
  let norm_msg := normalize message false in
  (fix loop (l : list pattern) : bool :=
     match l with
     | [] => false
     | tmpl_pattern :: l' =>
         if fullmatch tmpl_pattern norm_msg then true else loop l'
     end) templates_list.

(** Lines 89 to 93. *)
Definition check_row (r : row) : exn + bool :=
  match casa_sender_name r with
  | Some (Str bank) =>
      match templates !! bank with
      | Some templates_list =>
          match message r with
          | Some m => inr (is_covered m templates_list)
          | None => inl (KeyError "message")
          end
      | None => inr false
      end
  | _ => inr false
  end.

(** Line 103: one future per index, holding the outcome of its unit. *)
Definition futures (rows : list row) : list (nat * (exn + bool)) :=
  imap (fun i r => (i, check_row r)) rows.

(** Lines 106 to 110, for one completed future. *)
Definition store (results : list (option bool)) (fut : nat * (exn + bool))
  : list (option bool) :=
  let '(idx, outcome) := fut in
  match outcome with
  | inr b => <[idx := Some b]> results
  | inl _ => <[idx := Some false]> results
  end.

(** Lines 99 to 110: [completed] is the order in which [as_completed]
    hands the futures over. *)
Definition evaluate (rows : list row) (completed : list (nat * (exn + bool)))
  : list (option bool) :=
  fold_left store completed (replicate (length rows) None).

(** Lines 114 to 117: groups are keyed by the sender column, null keys are
    dropped, [count] counts the non-null cells of [covered] and [sum] the
    true ones.  After line 48 a key is a string or null. *)
Definition group_add (summary : gmap (list ascii) stats)
    (kv : cell * option bool) : gmap (list ascii) stats :=
  match fst kv with
  | Str k =>
      let e := default (Stats 0 0) (summary !! k) in
      <[k := Stats (total e + (if snd kv is Some _ then 1 else 0))
                   (covered e + (if snd kv is Some true then 1 else 0))]>
        summary
  | _ => summary
  end.

Definition coverage_summary (rows : list row) (results : list (option bool))
  : exn + gmap (list ascii) stats :=
  match mapM casa_sender_name rows with
  | Some keys => inr (fold_left group_add (zip keys results) ∅)
  | None => inl (KeyError "casa_sender_name")
  end.

(** Lines 46 to 48 and 98 to 117 together. *)
Definition pipeline (messages_df : list row)
    (completed : list (nat * (exn + bool)))
  : list (option bool) * (exn + gmap (list ascii) stats) :=
  let rows := map canon_sender messages_df in
  let results := evaluate rows completed in
  (results, coverage_summary rows results).

End Coverage.

(** ** Facts on characters, by enumeration of the 256 codes *)

Definition all_ascii (p : ascii -> bool) : bool :=
  forallb (fun n => p (ascii_of_nat n)) (seq 0 256).

Lemma all_ascii_spec (p : ascii -> bool) :
  all_ascii p = true -> forall c, p c = true.
Proof.
  intros H c. unfold all_ascii in H. rewrite forallb_forall in H.
  rewrite <- (ascii_nat_embedding c). apply H, in_seq.
  pose proof (nat_ascii_bounded c). lia.
Qed.

Ltac by_enumeration := apply all_ascii_spec; vm_compute; reflexivity.

Lemma lower_char_idem c : lower_char (lower_char c) = lower_char c.
Proof.
  revert c.
  enough (H : forall c, Ascii.eqb (lower_char (lower_char c)) (lower_char c) = true)
    by (intros c; apply Ascii.eqb_eq, H).
  by_enumeration.
Qed.


(** ** Stripping and collapsing *)

(** A text that does not begin with a blank. *)
Definition no_lead (s : list ascii) : bool :=
  match s with
  | [] => true
  | c :: _ => negb (is_space c)
  end.

(** Every blank is a space and no two blanks are adjacent; [prev] tells
    that the character before the text is a blank. *)
Fixpoint tidy_from (prev : bool) (s : list ascii) : bool :=
  match s with
  | [] => true
  | c :: s' =>
      if is_space c
      then Ascii.eqb c " " && negb prev && tidy_from true s'
      else tidy_from false s'
  end.

(** The shape of a cleaned text. *)
Definition normal (s : list ascii) : Prop :=
  lower s = s /\ no_lead s = true /\ no_lead (rev s) = true
  /\ tidy_from false s = true.

Lemma lstrip_no_lead s : no_lead (lstrip s) = true.
Proof.
  induction s as [|c s IH]; simpl; [reflexivity|].
  destruct (is_space c) eqn:E; [exact IH|]. simpl. now rewrite E.
Qed.

Lemma lstrip_fix s : no_lead s = true -> lstrip s = s.
Proof.
  destruct s as [|c s]; simpl; [reflexivity|].
  destruct (is_space c); [discriminate|reflexivity].
Qed.

Lemma lstrip_suffix s : exists u, s = u ++ lstrip s.
Proof.
  induction s as [|c s [u IH]]; simpl.
  - now exists [].
  - destruct (is_space c).
    + exists (c :: u). simpl. now f_equal.
    + now exists [].
Qed.

Lemma rstrip_prefix s : exists u, s = rstrip s ++ u.
Proof.
  destruct (lstrip_suffix (rev s)) as [u Hu]. exists (rev u).
  unfold rstrip. rewrite <- rev_app_distr, <- Hu. symmetry. apply rev_involutive.
Qed.

Lemma no_lead_prefix s u : no_lead (s ++ u) = true -> no_lead s = true.
Proof. destruct s; simpl; auto. Qed.

Lemma rev_rstrip s : rev (rstrip s) = lstrip (rev s).
Proof. unfold rstrip. apply rev_involutive. Qed.

Lemma strip_no_lead s : no_lead (strip s) = true.
Proof.
  unfold strip. destruct (rstrip_prefix (lstrip s)) as [u Hu].
  apply no_lead_prefix with u. rewrite <- Hu. apply lstrip_no_lead.
Qed.

Lemma strip_no_trail s : no_lead (rev (strip s)) = true.
Proof. unfold strip. rewrite rev_rstrip. apply lstrip_no_lead. Qed.

Lemma strip_fix s :
  no_lead s = true -> no_lead (rev s) = true -> strip s = s.
Proof.
  intros H1 H2. unfold strip, rstrip.
  rewrite (lstrip_fix s H1), (lstrip_fix _ H2). apply rev_involutive.
Qed.

Lemma collapse_tidy b s : tidy_from b (collapse_from b s) = true.
Proof.
  revert b. induction s as [|c s IH]; intros b; simpl; [reflexivity|].
  destruct (is_space c) eqn:E.
  - destruct b; [apply IH|]. simpl. now rewrite IH.
  - simpl. rewrite E. apply IH.
Qed.

Lemma collapse_fix b s : tidy_from b s = true -> collapse_from b s = s.
Proof.
  revert b. induction s as [|c s IH]; intros b; simpl; [reflexivity|].
  destruct (is_space c).
  - intros H. apply andb_prop in H as [H H3]. apply andb_prop in H as [H1 H2].
    apply Ascii.eqb_eq in H1. subst c.
    destruct b; [discriminate|]. f_equal. now apply IH.
  - intros H. f_equal. now apply IH.
Qed.

Lemma collapse_no_lead b s :
  no_lead s = true -> no_lead (collapse_from b s) = true.
Proof.
  destruct s as [|c s]; simpl; [reflexivity|].
  destruct (is_space c) eqn:E; [discriminate|]. intros _. simpl. now rewrite E.
Qed.

Lemma collapse_snoc b s c :
  is_space c = false -> collapse_from b (s ++ [c]) = collapse_from b s ++ [c].
Proof.
  intros Hc. revert b. induction s as [|d s IH]; intros b; simpl.
  - now rewrite Hc.
  - destruct (is_space d); [destruct b|]; simpl; now rewrite IH.
Qed.

Lemma no_trail_inv s :
  no_lead (rev s) = true ->
  s = [] \/ exists s' c, s = s' ++ [c] /\ is_space c = false.
Proof.
  intros H. destruct (rev s) as [|c r] eqn:E.
  - left. apply (f_equal (@rev ascii)) in E. now rewrite rev_involutive in E.
  - right. exists (rev r), c. split.
    + apply (f_equal (@rev ascii)) in E. now rewrite rev_involutive in E.
    + simpl in H. now destruct (is_space c).
Qed.

Lemma collapse_no_trail b s :
  no_lead (rev s) = true -> no_lead (rev (collapse_from b s)) = true.
Proof.
  intros H. destruct (no_trail_inv s H) as [->|(s' & c & -> & Hc)].
  - reflexivity.
  - rewrite collapse_snoc by assumption. rewrite rev_app_distr. simpl.
    now rewrite Hc.
Qed.

Lemma Forall_lstrip (P : ascii -> Prop) s : Forall P s -> Forall P (lstrip s).
Proof.
  induction 1 as [|c s Hc Hs IH]; simpl; [constructor|].
  destruct (is_space c); [exact IH|now constructor].
Qed.

Lemma Forall_strip (P : ascii -> Prop) s : Forall P s -> Forall P (strip s).
Proof.
  intros H. unfold strip, rstrip.
  apply Forall_rev, Forall_lstrip, Forall_rev, Forall_lstrip, H.
Qed.

Lemma Forall_collapse (P : ascii -> Prop) b s :
  P " "%char -> Forall P s -> Forall P (collapse_from b s).
Proof.
  intros Hsp H. revert b.
  induction H as [|c s Hc Hs IH]; intros b; simpl; [constructor|].
  destruct (is_space c); [destruct b|]; auto.
Qed.

Lemma lower_fix s : Forall (fun c => lower_char c = c) s -> lower s = s.
Proof.
  unfold lower. induction 1 as [|c s Hc Hs IH]; simpl; [reflexivity|].
  now rewrite Hc, IH.
Qed.

Lemma clean_normal x : normal (clean x).
Proof.
  unfold clean, sub_spaces. repeat split.
  - apply lower_fix, Forall_collapse; [reflexivity|].
    apply Forall_strip. unfold lower. apply List.Forall_forall.
    intros c Hc. apply in_map_iff in Hc as (d & <- & _). apply lower_char_idem.
  - apply collapse_no_lead, strip_no_lead.
  - apply collapse_no_trail, strip_no_trail.
  - apply collapse_tidy.
Qed.

Lemma normal_fix s : normal s -> clean (Str s) = s.
Proof.
  intros (H1 & H2 & H3 & H4). unfold clean, sub_spaces. simpl.
  rewrite H1, (strip_fix s H2 H3). now apply collapse_fix.
Qed.

(** C9.  [normalize] on a message is idempotent: normalising the text it
    returns gives that text back, [normalize(normalize(x)) == normalize(x)],
    for every value [x] of a cell. *)
Theorem normalize_idempotent (x : cell) :
  normalize (Str (normalize x false)) false = normalize x false.
Proof. unfold normalize. apply normal_fix, clean_normal. Qed.

(** ** The parallel evaluator *)

(** The value a unit leaves in its slot: its answer, or [False] when it
    raised. *)
Definition settle (outcome : exn + bool) : bool :=
  match outcome with
  | inr b => b
  | inl _ => false
  end.

Section Evaluation.

Context {pattern : Type}.
Variable fullmatch : pattern -> list ascii -> bool.
Variable templates : gmap (list ascii) (list pattern).

Local Abbreviation check := (check_row fullmatch templates).
Local Abbreviation submitted := (futures fullmatch templates).

Lemma store_settle results idx outcome :
  store results (idx, outcome) = <[idx := Some (settle outcome)]> results.
Proof. now destruct outcome. Qed.

Lemma length_fold_store completed results :
  length (fold_left store completed results) = length results.
Proof.
  revert results. induction completed as [|[idx o] l IH]; intros results.
  - reflexivity.
  - cbn [fold_left]. rewrite IH, store_settle. apply length_insert.
Qed.

Lemma fold_store_other completed (results : list (option bool)) i :
  i ∉ completed.*1 ->
  fold_left store completed results !! i = results !! i.
Proof.
  revert results. induction completed as [|[idx o] l IH]; intros results Hi.
  - reflexivity.
  - cbn [fold_left]. rewrite fmap_cons, not_elem_of_cons in Hi.
    destruct Hi as [Hne Hi]. rewrite IH by assumption.
    rewrite store_settle. apply list_lookup_insert_ne. simpl in Hne. congruence.
Qed.

(** A slot is written by the future that carries its index and by no
    other one. *)
Lemma fold_store_slot completed (results : list (option bool)) i o :
  NoDup completed.*1 -> (i, o) ∈ completed -> i < length results ->
  fold_left store completed results !! i = Some (Some (settle o)).
Proof.
  revert results.
  induction completed as [|[idx o'] l IH]; intros results Hnd Hin Hlt.
  - now apply elem_of_nil in Hin.
  - rewrite fmap_cons in Hnd. apply NoDup_cons in Hnd as [Hfresh Hnd].
    cbn [fold_left]. apply elem_of_cons in Hin as [Heq|Hin].
    + injection Heq as <- <-. rewrite fold_store_other by assumption.
      rewrite store_settle. now apply list_lookup_insert_eq.
    + apply IH; try assumption.
      rewrite store_settle, length_insert. exact Hlt.
Qed.

Lemma futures_indices rows : (submitted rows).*1 = seq 0 (length rows).
Proof.
  apply list_eq. intros i. unfold futures.
  rewrite list_lookup_fmap, list_lookup_imap.
  destruct (rows !! i) as [r|] eqn:E; simpl.
  - symmetry. apply lookup_seq. split; [reflexivity|].
    now apply lookup_lt_Some in E.
  - symmetry. apply lookup_seq_ge. now apply lookup_ge_None in E.
Qed.

Lemma futures_elem rows i r :
  rows !! i = Some r -> (i, check r) ∈ submitted rows.
Proof.
  intros E. apply list_elem_of_lookup. exists i. unfold futures.
  rewrite list_lookup_imap, E. reflexivity.
Qed.

Lemma completed_NoDup rows completed :
  completed ≡ₚ submitted rows -> NoDup completed.*1.
Proof.
  intros Hp. rewrite Hp, futures_indices. apply NoDup_seq.
Qed.

Lemma evaluate_slot rows completed i r :
  completed ≡ₚ submitted rows -> rows !! i = Some r ->
  evaluate rows completed !! i = Some (Some (settle (check r))).
Proof.
  intros Hp E. unfold evaluate. apply fold_store_slot.
  - now apply completed_NoDup with rows.
  - rewrite Hp. now apply futures_elem.
  - rewrite length_replicate. now apply lookup_lt_Some in E.
Qed.

Lemma length_evaluate rows completed :
  length (evaluate rows completed) = length rows.
Proof. unfold evaluate. now rewrite length_fold_store, length_replicate. Qed.

Lemma evaluate_map rows completed :
  completed ≡ₚ submitted rows ->
  evaluate rows completed = map (fun r => Some (settle (check r))) rows.
Proof.
  intros Hp. apply list_eq. intros i.
  change (map ?f rows) with (f <$> rows). rewrite list_lookup_fmap.
  destruct (rows !! i) as [r|] eqn:E; simpl.
  - now apply evaluate_slot.
  - apply lookup_ge_None. rewrite length_evaluate. now apply lookup_ge_None.
Qed.

(** C1.  Whatever the order in which the futures complete, the batch
    evaluation returns one result per record, and the result at index [i]
    is the coverage check of record [i], or false when the unit of that
    record raised. *)
Theorem evaluate_in_input_order rows completed :
  completed ≡ₚ futures fullmatch templates rows ->
  length (evaluate rows completed) = length rows
  /\ forall i r, rows !! i = Some r ->
       evaluate rows completed !! i
       = Some (Some (match check_row fullmatch templates r with
                     | inr b => b
                     | inl _ => false
                     end)).
Proof.
  intros Hp. split; [apply length_evaluate|].
  intros i r E. now apply evaluate_slot.
Qed.

(** C7.  When the unit of record [i] raises, slot [i] holds false, every
    record whose unit answers keeps its answer, and the batch still
    returns one result per record. *)
Theorem failure_is_isolated rows completed i r e :
  completed ≡ₚ futures fullmatch templates rows ->
  rows !! i = Some r -> check_row fullmatch templates r = inl e ->
  evaluate rows completed !! i = Some (Some false)
  /\ (forall j r' b, j <> i -> rows !! j = Some r' ->
        check_row fullmatch templates r' = inr b ->
        evaluate rows completed !! j = Some (Some b))
  /\ length (evaluate rows completed) = length rows.
Proof.
  intros Hp E He. split; [|split].
  - rewrite (evaluate_slot rows completed i r Hp E), He. reflexivity.
  - intros j r' b _ E' Hb.
    rewrite (evaluate_slot rows completed j r' Hp E'), Hb. reflexivity.
  - apply length_evaluate.
Qed.

(** C6.  A record whose sender key has no entry in the registry is not
    covered, whatever its message, and even when it has none. *)
Theorem unknown_sender_not_covered r bank :
  casa_sender_name r = Some (Str bank) -> templates !! bank = None ->
  check_row fullmatch templates r = inr false.
Proof. intros Hs Hn. unfold check_row. now rewrite Hs, Hn. Qed.

End Evaluation.

(** ** The registry of templates *)

Section Registry.

Context {pattern : Type}.
Variable re_compile : list ascii -> option pattern.
Variable fullmatch : pattern -> list ascii -> bool.

(** What one raw template contributes to the list of its sender. *)
Definition compile_one (t : cell) : option pattern :=
  if isna t then None else re_compile (normalize t true).

Lemma compiled_templates_from (raw : list cell) (compiled : list pattern) :
  fold_left
    (fun compiled t =>
       if isna t then compiled
       else match re_compile (normalize t true) with
            | Some p => compiled ++ [p]
            | None => compiled
            end)
    raw compiled
  = compiled ++ omap compile_one raw.
Proof.
  revert compiled. induction raw as [|t raw IH]; intros compiled.
  - cbn. now rewrite app_nil_r.
  - cbn [fold_left]. rewrite IH.
    change (omap compile_one (t :: raw))
      with (match compile_one t with
            | Some p => p :: omap compile_one raw
            | None => omap compile_one raw
            end).
    unfold compile_one at 2.
    destruct (isna t); [reflexivity|].
    destruct (re_compile (normalize t true)); [|reflexivity].
    now rewrite <- app_assoc.
Qed.

Lemma compiled_templates_omap raw :
  compiled_templates re_compile raw = omap compile_one raw.
Proof. unfold compiled_templates. now rewrite compiled_templates_from. Qed.

Lemma compiled_templates_app raw1 raw2 :
  compiled_templates re_compile (raw1 ++ raw2)
  = compiled_templates re_compile raw1 ++ compiled_templates re_compile raw2.
Proof. rewrite !compiled_templates_omap. apply omap_app. Qed.

Lemma compiled_templates_drop t :
  re_compile (normalize t true) = None ->
  compiled_templates re_compile [t] = [].
Proof.
  intros H. rewrite compiled_templates_omap. cbn. unfold compile_one.
  rewrite H. now destruct (isna t).
Qed.

Lemma compiled_templates_none raw :
  (forall t, t ∈ raw -> isna t = false -> re_compile (normalize t true) = None) ->
  compiled_templates re_compile raw = [].
Proof.
  intros H. rewrite compiled_templates_omap.
  induction raw as [|t raw IH]; [reflexivity|].
  change (omap compile_one (t :: raw))
    with (match compile_one t with
          | Some p => p :: omap compile_one raw
          | None => omap compile_one raw
          end).
  rewrite IH by (intros t' Ht'; apply H; now right).
  unfold compile_one. destruct (isna t) eqn:E; [reflexivity|].
  rewrite H; [reflexivity|now left|assumption].
Qed.

(** One turn of the loop of line 52. *)
Definition load_one (templates : gmap (list ascii) (list pattern))
    (entry : list ascii * option workbook) : gmap (list ascii) (list pattern) :=
  let '(file, read) := entry in
  if endswith (txt ".xlsx") file
  then match read with
       | Some df =>
           <[bank_name file :=
               compiled_templates re_compile (raw_templates df)]> templates
       | None => templates
       end
  else templates.

Lemma load_templates_fold (files : list (list ascii * option workbook)) :
  load_templates re_compile files = fold_left load_one files ∅.
Proof. reflexivity. Qed.

Lemma load_keeps (files : list (list ascii * option workbook))
    (templates : gmap (list ascii) (list pattern)) key :
  (forall f df, (f, Some df) ∈ files -> endswith (txt ".xlsx") f = true ->
     bank_name f <> key) ->
  fold_left load_one files templates !! key = templates !! key.
Proof.
  revert templates.
  induction files as [|[f read] l IH]; intros templates H; [reflexivity|].
  cbn [fold_left].
  rewrite IH by (intros f' df' Hin; apply (H f' df'); now right).
  unfold load_one. destruct (endswith (txt ".xlsx") f) eqn:E; [|reflexivity].
  destruct read as [df|]; [|reflexivity].
  apply lookup_insert_ne. apply (H f df); [now left|assumption].
Qed.

(** The entry of a sender is the compiled list of the last workbook read
    under its name, whatever the other files hold. *)
Lemma load_templates_lookup earlier file df later :
  endswith (txt ".xlsx") file = true ->
  (forall f' df', (f', Some df') ∈ later -> endswith (txt ".xlsx") f' = true ->
     bank_name f' <> bank_name file) ->
  load_templates re_compile (earlier ++ (file, Some df) :: later)
    !! bank_name file
  = Some (compiled_templates re_compile (raw_templates df)).
Proof.
  intros Hx Hlater. rewrite load_templates_fold, fold_left_app.
  cbn [fold_left]. rewrite load_keeps by assumption.
  unfold load_one at 1. rewrite Hx. apply lookup_insert_eq.
Qed.

Lemma is_covered_nil m : is_covered fullmatch m [] = false.
Proof. reflexivity. Qed.

Lemma check_row_empty_entry templates r bank :
  casa_sender_name r = Some (Str bank) -> templates !! bank = Some [] ->
  settle (check_row fullmatch templates r) = false.
Proof.
  intros Hs He. unfold check_row. rewrite Hs, He.
  now destruct (message r).
Qed.

(** C8.  The entry of a sender holds, in their order, the patterns of the
    templates of its workbook that compile, and nothing else: a template
    whose compilation fails is left out, and the templates before and after
    it are in the entry as if it were not there.  The same holds of every
    other workbook of the listing, whatever failed in this one.  A sender
    none of whose templates compiles has the empty list as its entry, and
    under it no message is covered. *)
Theorem compile_failure_is_local earlier file df later :
  endswith (txt ".xlsx") file = true ->
  (forall f' df', (f', Some df') ∈ later -> endswith (txt ".xlsx") f' = true ->
     bank_name f' <> bank_name file) ->
  let templates :=
    load_templates re_compile (earlier ++ (file, Some df) :: later) in
  let built :=
    omap (fun t => if isna t then None else re_compile (normalize t true)) in
  templates !! bank_name file = Some (built (raw_templates df))
  /\ (forall before t after,
        raw_templates df = before ++ t :: after ->
        re_compile (normalize t true) = None ->
        templates !! bank_name file = Some (built before ++ built after))
  /\ (forall earlier' file' df' later',
        earlier ++ (file, Some df) :: later
        = earlier' ++ (file', Some df') :: later' ->
        endswith (txt ".xlsx") file' = true ->
        (forall f'' df'', (f'', Some df'') ∈ later' ->
           endswith (txt ".xlsx") f'' = true ->
           bank_name f'' <> bank_name file') ->
        templates !! bank_name file' = Some (built (raw_templates df')))
  /\ ((forall t, t ∈ raw_templates df -> isna t = false ->
         re_compile (normalize t true) = None) ->
      templates !! bank_name file = Some []
      /\ forall r, casa_sender_name r = Some (Str (bank_name file)) ->
           settle (check_row fullmatch templates r) = false).
Proof.
  intros Hx Hlater templates built.
  subst built. cbv beta.
  change (fun t : cell => if isna t then None else re_compile (normalize t true))
    with compile_one.
  assert (Hentry : templates !! bank_name file
                   = Some (omap compile_one (raw_templates df))).
  { unfold templates. rewrite load_templates_lookup by assumption.
    now rewrite compiled_templates_omap. }
  split; [exact Hentry|]. split; [|split].
  - intros before t after Hraw Hfail. rewrite Hentry, Hraw.
    change (t :: after) with ([t] ++ after).
    rewrite !omap_app, <- (compiled_templates_omap [t]).
    now rewrite compiled_templates_drop.
  - intros earlier' file' df' later' Heq Hx' Hlater'. unfold templates.
    rewrite Heq, load_templates_lookup by assumption.
    now rewrite compiled_templates_omap.
  - intros Hall.
    assert (Hnil : templates !! bank_name file = Some []).
    { rewrite Hentry, <- compiled_templates_omap.
      now rewrite compiled_templates_none. }
    split; [exact Hnil|].
    intros r Hr. now apply check_row_empty_entry with (bank_name file).
Qed.

End Registry.

(** ** The aggregator *)

Definition key_is (k : list ascii) (kv : cell * option bool) : bool :=
  match fst kv with
  | Str s => bool_decide (s = k)
  | _ => false
  end.

(** The count and the sum of the group of [k]. *)
Fixpoint tally (k : list ascii) (kvs : list (cell * option bool)) : stats :=
  match kvs with
  | [] => Stats 0 0
  | kv :: l =>
      let e := tally k l in
      if key_is k kv
      then Stats ((if snd kv is Some _ then 1 else 0) + total e)
                 ((if snd kv is Some true then 1 else 0) + covered e)
      else e
  end.

Lemma tally_absent k kvs :
  existsb (key_is k) kvs = false -> tally k kvs = Stats 0 0.
Proof.
  induction kvs as [|kv l IH]; simpl; [reflexivity|].
  destruct (key_is k kv); [discriminate|exact IH].
Qed.

Lemma tally_le k kvs : covered (tally k kvs) <= total (tally k kvs).
Proof.
  induction kvs as [|[c [[]|]] l IH]; simpl; try lia;
    destruct (key_is k _); simpl; lia.
Qed.

Lemma tally_pos k kvs :
  Forall (fun kv => is_Some (snd kv)) kvs ->
  existsb (key_is k) kvs = true -> 1 <= total (tally k kvs).
Proof.
  induction 1 as [|kv l [b Hb] Hl IH]; simpl; [discriminate|].
  destruct (key_is k kv); simpl.
  - intros _. rewrite Hb. lia.
  - exact IH.
Qed.

Lemma group_add_lookup (summary : gmap (list ascii) stats)
    (kv : cell * option bool) (k : list ascii) :
  group_add summary kv !! k
  = if key_is k kv
    then let e := default (Stats 0 0) (summary !! k) in
         Some (Stats (total e + (if snd kv is Some _ then 1 else 0))
                     (covered e + (if snd kv is Some true then 1 else 0)))
    else summary !! k.
Proof.
  unfold group_add, key_is. destruct (fst kv) as [s| |r]; try reflexivity.
  case_bool_decide as E.
  - subst s. apply lookup_insert_eq.
  - now apply lookup_insert_ne.
Qed.

(** The entry of a key after the grouping. *)
Lemma fold_group_lookup (kvs : list (cell * option bool))
    (summary : gmap (list ascii) stats) (k : list ascii) :
  fold_left group_add kvs summary !! k
  = if existsb (key_is k) kvs
    then let e := default (Stats 0 0) (summary !! k) in
         Some (Stats (total e + total (tally k kvs))
                     (covered e + covered (tally k kvs)))
    else summary !! k.
Proof.
  revert summary. induction kvs as [|kv l IH]; intros summary; [reflexivity|].
  cbn [fold_left existsb tally]. rewrite IH, group_add_lookup.
  destruct (key_is k kv); cbn [orb]; [|reflexivity].
  destruct (existsb (key_is k) l) eqn:E.
  - simpl. f_equal. f_equal; lia.
  - rewrite (tally_absent k l E). simpl. f_equal. f_equal; lia.
Qed.

Lemma summary_lookup (kvs : list (cell * option bool)) (k : list ascii) :
  fold_left group_add kvs (∅ : gmap (list ascii) stats) !! k
  = if existsb (key_is k) kvs then Some (tally k kvs) else None.
Proof.
  rewrite fold_group_lookup, lookup_empty.
  destruct (existsb (key_is k) kvs); [|reflexivity]. now destruct (tally k kvs).
Qed.

(** *** The float quotient *)

Section Quotient.

Local Open Scope Z_scope.

Lemma round_half_even_cases n d :
  0 < d ->
  let m := round_half_even n d in
  (m = n / d \/ m = n / d + 1) /\ 2 * Z.abs (m * d - n) <= d.
Proof.
  intros Hd. unfold round_half_even.
  pose proof (Z.div_mod n d ltac:(lia)) as E.
  pose proof (Z.mod_pos_bound n d Hd) as B.
  destruct (2 * (n mod d) <? d) eqn:E1; [apply Z.ltb_lt in E1|apply Z.ltb_ge in E1].
  { split; [now left|nia]. }
  destruct (d <? 2 * (n mod d)) eqn:E2; [apply Z.ltb_lt in E2|apply Z.ltb_ge in E2].
  { split; [now right|nia]. }
  destruct (Z.even (n / d)); (split; [auto|nia]).
Qed.

Lemma round_half_even_nonneg n d : 0 <= n -> 0 < d -> 0 <= round_half_even n d.
Proof.
  intros Hn Hd. pose proof (Z.div_pos n d Hn Hd).
  destruct (round_half_even_cases n d Hd) as [[E|E] _]; lia.
Qed.

Lemma round_half_even_exact n d :
  0 < d -> n mod d = 0 -> round_half_even n d * d = n.
Proof.
  intros Hd Hr. unfold round_half_even. rewrite Hr.
  replace (2 * 0 <? d) with true by (symmetry; apply Z.ltb_lt; lia).
  pose proof (Z.div_mod n d ltac:(lia)). lia.
Qed.

Lemma round_half_even_le n d N :
  0 < d -> n <= N * d -> round_half_even n d <= N.
Proof.
  intros Hd Hn.
  destruct (Z.eq_dec (n mod d) 0) as [E|E].
  - pose proof (round_half_even_exact n d Hd E). nia.
  - pose proof (Z.div_mod n d ltac:(lia)) as D.
    pose proof (Z.mod_pos_bound n d Hd) as B.
    destruct (round_half_even_cases n d Hd) as [[G|G] _]; nia.
Qed.

Lemma round_half_even_ge n d N :
  0 < d -> N * d <= n -> N <= round_half_even n d.
Proof.
  intros Hd Hn.
  pose proof (Z.div_mod n d ltac:(lia)) as D.
  pose proof (Z.mod_pos_bound n d Hd) as B.
  destruct (round_half_even_cases n d Hd) as [[G|G] _]; nia.
Qed.

Lemma exponent_le a b : 0 < a -> 0 < b -> a <= 100 * b -> exponent a b <= -45.
Proof.
  intros Ha Hb H. unfold exponent.
  assert (Z.log2 a <= 7 + Z.log2 b).
  { rewrite <- (Z.log2_mul_pow2 b 7) by lia.
    apply Z.log2_le_mono. change (2 ^ 7) with 128. lia. }
  destruct (_ <=? _); lia.
Qed.

Lemma log2_frame a : 0 < a -> 2 ^ Z.log2 a <= a < 2 * 2 ^ Z.log2 a.
Proof.
  intros Ha. pose proof (Z.log2_spec a Ha) as H.
  rewrite Z.pow_succ_r in H by apply Z.log2_nonneg. exact H.
Qed.

(** The scaled quotient has 53 binary digits before the point. *)
Lemma exponent_frame a b :
  0 < a -> 0 < b -> a <= 100 * b ->
  let P := 2 ^ (- exponent a b) in
  2 ^ 52 * b <= a * P < 2 ^ 53 * b.
Proof.
  intros Ha Hb H.
  pose proof (exponent_le a b Ha Hb H) as He. revert He.
  unfold exponent.
  pose proof (log2_frame a Ha) as Fa. pose proof (log2_frame b Hb) as Fb.
  pose proof (Z.log2_nonneg a) as Na. pose proof (Z.log2_nonneg b) as Nb.
  set (la := Z.log2 a) in *. set (lb := Z.log2 b) in *.
  assert (0 < 2 ^ la) by (apply Z.pow_pos_nonneg; lia).
  assert (0 < 2 ^ lb) by (apply Z.pow_pos_nonneg; lia).
  destruct (Z.le_gt_cases 0 (la - lb)) as [Hk|Hk].
  - rewrite (Z.max_r 0 (la - lb)), (Z.max_l 0 (- (la - lb))) by lia.
    assert (Ek : 2 ^ la = 2 ^ (la - lb) * 2 ^ lb)
      by (rewrite <- Z.pow_add_r by lia; f_equal; lia).
    assert (0 < 2 ^ (la - lb)) by (apply Z.pow_pos_nonneg; lia).
    destruct (_ <=? _) eqn:T; [apply Z.leb_le in T|apply Z.leb_gt in T];
      intros He; cbv zeta.
    + assert (E52 : 2 ^ 52 = 2 ^ (la - lb) * 2 ^ (- (la - lb - 52)))
        by (rewrite <- Z.pow_add_r by lia; f_equal; lia).
      assert (0 < 2 ^ (- (la - lb - 52))) by (apply Z.pow_pos_nonneg; lia).
      change (2 ^ 53) with (2 * 2 ^ 52). rewrite E52.
      set (K := 2 ^ (la - lb)) in *. set (P := 2 ^ (- (la - lb - 52))) in *.
      set (A := 2 ^ la) in *. set (B := 2 ^ lb) in *. nia.
    + assert (E53 : 2 ^ 53 = 2 ^ (la - lb) * 2 ^ (- (la - lb - 53)))
        by (rewrite <- Z.pow_add_r by lia; f_equal; lia).
      assert (0 < 2 ^ (- (la - lb - 53))) by (apply Z.pow_pos_nonneg; lia).
      assert (E52 : 2 * 2 ^ 52 = 2 ^ 53) by reflexivity.
      set (K := 2 ^ (la - lb)) in *. set (P := 2 ^ (- (la - lb - 53))) in *.
      set (A := 2 ^ la) in *. set (B := 2 ^ lb) in *.
      set (X := 2 ^ 52) in *. set (Y := 2 ^ 53) in *. nia.
  - rewrite (Z.max_l 0 (la - lb)), (Z.max_r 0 (- (la - lb))) by lia.
    assert (Ek : 2 ^ lb = 2 ^ (- (la - lb)) * 2 ^ la)
      by (rewrite <- Z.pow_add_r by lia; f_equal; lia).
    assert (0 < 2 ^ (- (la - lb))) by (apply Z.pow_pos_nonneg; lia).
    destruct (_ <=? _) eqn:T; [apply Z.leb_le in T|apply Z.leb_gt in T];
      intros He; cbv zeta.
    + assert (EP : 2 ^ (- (la - lb - 52)) = 2 ^ 52 * 2 ^ (- (la - lb)))
        by (rewrite <- Z.pow_add_r by lia; f_equal; lia).
      rewrite EP. change (2 ^ 53) with (2 * 2 ^ 52).
      set (K := 2 ^ (- (la - lb))) in *.
      set (A := 2 ^ la) in *. set (B := 2 ^ lb) in *.
      assert (0 < 2 ^ 52) by reflexivity. set (X := 2 ^ 52) in *. nia.
    + assert (EP : 2 ^ (- (la - lb - 53)) = 2 ^ 53 * 2 ^ (- (la - lb)))
        by (rewrite <- Z.pow_add_r by lia; f_equal; lia).
      rewrite EP. change (2 ^ 53) with (2 * 2 ^ 52).
      set (K := 2 ^ (- (la - lb))) in *.
      set (A := 2 ^ la) in *. set (B := 2 ^ lb) in *.
      assert (0 < 2 ^ 52) by reflexivity. set (X := 2 ^ 52) in *. nia.
Qed.

Lemma true_div_rounds a b :
  0 < a -> 0 < b -> a <= 100 * b ->
  exists m p,
    true_div a b = Num (Qred (inject_Z m / inject_Z (2 ^ p)))
    /\ 45 <= p
    /\ 2 ^ 52 <= m <= 2 ^ 53
    /\ 2 * Z.abs (m * b - a * 2 ^ p) <= b
    /\ m <= 100 * 2 ^ p
    /\ (a mod b = 0 -> m * b = a * 2 ^ p).
Proof.
  intros Ha Hb H.
  pose proof (exponent_le a b Ha Hb H) as He.
  pose proof (exponent_frame a b Ha Hb H) as Hf. cbv zeta in Hf.
  exists (round_half_even (a * 2 ^ (- exponent a b)) b), (- exponent a b).
  split; [|split; [lia|]].
  - unfold true_div.
    replace (b =? 0) with false by (symmetry; apply Z.eqb_neq; lia).
    replace (a =? 0) with false by (symmetry; apply Z.eqb_neq; lia).
    cbv zeta. rewrite (Z.max_l 0 (exponent a b)), (Z.max_r 0 (- exponent a b)) by lia.
    now rewrite Z.pow_0_r, !Z.mul_1_r.
  - set (P := 2 ^ (- exponent a b)) in *.
    assert (0 < P) by (apply Z.pow_pos_nonneg; lia).
    split; [split|split; [|split]].
    + apply round_half_even_ge; lia.
    + apply round_half_even_le; lia.
    + apply (round_half_even_cases (a * P) b Hb).
    + apply round_half_even_le; nia.
    + intros Hm. apply round_half_even_exact; [lia|].
      rewrite <- Z.mul_mod_idemp_l, Hm by lia. apply Z.mod_0_l. lia.
Qed.

Lemma true_div_percentage a b :
  0 < b -> 0 <= a <= 100 * b ->
  exists q,
    true_div a b = Num q
    /\ (0 <= q)%Q /\ (q <= 100)%Q
    /\ (Qabs (q * inject_Z b - inject_Z a)
        <= inject_Z b * (1 # 70368744177664))%Q
    /\ (a mod b = 0 -> (q * inject_Z b == inject_Z a)%Q).
Proof.
  intros Hb [Ha H].
  assert (Hbq : (0 < inject_Z b)%Q)
    by (change 0%Q with (inject_Z 0); rewrite <- Zlt_Qlt; lia).
  destruct (Z.eq_dec a 0) as [->|Hz].
  { exists 0%Q. split.
    - unfold true_div. now replace (b =? 0) with false
        by (symmetry; apply Z.eqb_neq; lia).
    - split; [apply Qle_refl|]. split; [discriminate|]. split.
      + rewrite Qmult_0_l. change (inject_Z 0) with 0%Q.
        apply Qmult_le_0_compat; [now apply Qlt_le_weak|discriminate].
      + intros _. now rewrite Qmult_0_l. }
  destruct (true_div_rounds a b ltac:(lia) Hb H)
    as (m & p & Hv & Hp & Hm & Hnear & Hle & Hex).
  assert (HP : 0 < 2 ^ p) by (apply Z.pow_pos_nonneg; lia).
  assert (HPq : (0 < inject_Z (2 ^ p))%Q)
    by (change 0%Q with (inject_Z 0); rewrite <- Zlt_Qlt; lia).
  assert (HPn : ~ (inject_Z (2 ^ p) == 0)%Q).
  { intros E. rewrite E in HPq. discriminate. }
  assert (H46 : 2 ^ 46 <= 2 * 2 ^ p).
  { change (2 ^ 46) with (2 * 2 ^ 45). apply Z.mul_le_mono_nonneg_l; [lia|].
    apply Z.pow_le_mono_r; lia. }
  eexists. split; [exact Hv|]. rewrite Qred_correct.
  split; [|split; [|split]].
  - apply Qle_shift_div_l; [exact HPq|]. rewrite Qmult_0_l.
    change 0%Q with (inject_Z 0). rewrite <- Zle_Qle.
    assert (0 < 2 ^ 52) by reflexivity. lia.
  - apply Qle_shift_div_r; [exact HPq|].
    change 100%Q with (inject_Z 100). rewrite <- inject_Z_mult, <- Zle_Qle. lia.
  - setoid_replace (inject_Z m / inject_Z (2 ^ p) * inject_Z b - inject_Z a)%Q
      with (inject_Z (m * b - a * 2 ^ p) / inject_Z (2 ^ p))%Q
      using relation Qeq by (unfold Z.sub; rewrite inject_Z_plus, inject_Z_opp, !inject_Z_mult;
          field; exact HPn).
    setoid_replace (inject_Z b * (1 # 70368744177664))%Q
      with (inject_Z b / inject_Z (2 ^ 46))%Q
      using relation Qeq by reflexivity.
    apply Qabs_Qle_condition. split.
    + apply Qle_shift_div_l; [exact HPq|].
      setoid_replace (- (inject_Z b / inject_Z (2 ^ 46)) * inject_Z (2 ^ p))%Q
        with (- (inject_Z (b * 2 ^ p)) / inject_Z (2 ^ 46))%Q
        using relation Qeq by (rewrite inject_Z_mult; field; discriminate).
      apply Qle_shift_div_r; [reflexivity|].
      rewrite <- inject_Z_opp, <- inject_Z_mult, <- Zle_Qle.
      set (P := 2 ^ p) in *. set (C := 2 ^ 46) in *. nia.
    + apply Qle_shift_div_r; [exact HPq|].
      setoid_replace (inject_Z b / inject_Z (2 ^ 46) * inject_Z (2 ^ p))%Q
        with (inject_Z (b * 2 ^ p) / inject_Z (2 ^ 46))%Q
        using relation Qeq by (rewrite inject_Z_mult; field; discriminate).
      apply Qle_shift_div_l; [reflexivity|].
      rewrite <- inject_Z_mult, <- Zle_Qle.
      set (P := 2 ^ p) in *. set (C := 2 ^ 46) in *. nia.
  - intros Hmod. specialize (Hex Hmod).
    setoid_replace (inject_Z m / inject_Z (2 ^ p) * inject_Z b)%Q
      with (inject_Z (m * b) / inject_Z (2 ^ p))%Q
      using relation Qeq by (rewrite inject_Z_mult; field; exact HPn).
    rewrite Hex, inject_Z_mult. field. exact HPn.
Qed.

End Quotient.

Lemma zip_results_some (keys : list cell) (rows : list row) (f : row -> bool) :
  Forall (fun kv : cell * option bool => is_Some (snd kv))
         (zip keys (map (fun r => Some (f r)) rows)).
Proof.
  revert rows. induction keys as [|c keys IH]; intros [|r rows]; simpl;
    try constructor; [now eexists|apply IH].
Qed.

Lemma existsb_key_zip (keys : list cell) (results : list (option bool)) k :
  length keys = length results ->
  existsb (key_is k) (zip keys results) = true <-> Str k ∈ keys.
Proof.
  revert results. induction keys as [|c keys IH]; intros [|v results] Hlen;
    try discriminate; simpl.
  - split; [discriminate|]. intros H. now apply elem_of_nil in H.
  - injection Hlen as Hlen. rewrite orb_true_iff, (IH results Hlen), elem_of_cons.
    unfold key_is. simpl. destruct c as [s| |r]; try case_bool_decide;
      split; intros [G|G]; auto; try discriminate; try congruence.
    left. congruence.
Qed.

Lemma senders_of_rows (rows : list row) (keys : list cell) c :
  mapM casa_sender_name rows = Some keys ->
  c ∈ keys <-> exists r, r ∈ rows /\ casa_sender_name r = Some c.
Proof.
  rewrite mapM_Some. induction 1 as [|r c' rows keys Hr _ IH].
  - split; [intros H; now apply elem_of_nil in H|].
    intros (r & H & _). now apply elem_of_nil in H.
  - rewrite elem_of_cons, IH. split.
    + intros [->|(r' & Hin & Hr')].
      * exists r. split; [now left|assumption].
      * exists r'. split; [now right|assumption].
    + intros (r' & Hin & Hr'). apply elem_of_cons in Hin as [->|Hin].
      * left. congruence.
      * right. now exists r'.
Qed.

Lemma canon_sender_key (r : row) k :
  casa_sender_name (canon_sender r) = Some (Str k)
  <-> exists s, casa_sender_name r = Some (Str s) /\ k = sender_key s.
Proof.
  unfold canon_sender. simpl. destruct (casa_sender_name r) as [[s| |x]|]; simpl.
  - split; [intros [= <-]; now exists s|intros (s' & [= <-] & ->); reflexivity].
  - split; [discriminate|intros (s' & [=] & _)].
  - split; [discriminate|intros (s' & [=] & _)].
  - split; [discriminate|intros (s' & [=] & _)].
Qed.

Section Aggregation.

Context {pattern : Type}.
Variable fullmatch : pattern -> list ascii -> bool.
Variable templates : gmap (list ascii) (list pattern).

Lemma pipeline_summary messages_df completed summary :
  snd (pipeline messages_df completed) = inr summary ->
  exists keys,
    mapM casa_sender_name (map canon_sender messages_df) = Some keys
    /\ summary
       = fold_left group_add
           (zip keys
              (evaluate (map canon_sender messages_df)
                 completed)) ∅.
Proof.
  unfold pipeline, coverage_summary. simpl.
  destruct (mapM casa_sender_name (map canon_sender messages_df)) as [keys|];
    [|discriminate].
  intros [= <-]. now exists keys.
Qed.

(** Every group of the summary holds a record, and counts no more covered
    records than records. *)
Lemma summary_entry_bounds messages_df completed summary k e :
  completed ≡ₚ futures fullmatch templates (map canon_sender messages_df) ->
  snd (pipeline messages_df completed) = inr summary ->
  summary !! k = Some e ->
  1 <= total e /\ covered e <= total e.
Proof.
  intros Hp Hs He.
  destruct (pipeline_summary _ _ _ Hs) as (keys & Hkeys & ->).
  rewrite summary_lookup in He.
  destruct (existsb _ _) eqn:Ex; [|discriminate]. injection He as <-.
  split; [|apply tally_le].
  apply tally_pos; [|exact Ex].
  rewrite (evaluate_map _ _ _ _ Hp). apply zip_results_some.
Qed.

(** C5, as the code has it.  Every entry of the coverage summary counts at
    least one record, so no entry has total 0, and no more covered records
    than records.  Its percentage is the float quotient of line 118: a
    number between 0 and 100 that is no further than 2^-46 from
    100 * covered / total, and is that quotient when total divides
    100 * covered. *)
Theorem coverage_pct_in_range messages_df completed summary k e :
  completed ≡ₚ futures fullmatch templates (map canon_sender messages_df) ->
  snd (pipeline messages_df completed) = inr summary ->
  summary !! k = Some e ->
  1 <= total e
  /\ covered e <= total e
  /\ exists q,
       coverage_pct e = Num q
       /\ (0 <= q)%Q /\ (q <= 100)%Q
       /\ (Qabs (q * inject_Z (Z.of_nat (total e))
                 - inject_Z (100 * Z.of_nat (covered e)))
           <= inject_Z (Z.of_nat (total e)) * (1 # 70368744177664))%Q
       /\ ((100 * Z.of_nat (covered e) mod Z.of_nat (total e) = 0)%Z ->
           (q * inject_Z (Z.of_nat (total e))
            == inject_Z (100 * Z.of_nat (covered e)))%Q).
Proof.
  intros Hp Hs He.
  destruct (summary_entry_bounds _ _ _ _ _ Hp Hs He) as [H1 H2].
  split; [exact H1|]. split; [exact H2|].
  apply true_div_percentage; lia.
Qed.

(** C3, as the code has it.  The keys of the coverage summary are the
    sender values of the records after line 48 has upper-cased and stripped
    them, the very keys under which the registry is read. *)
Theorem summary_keys_are_canonical messages_df completed summary k :
  snd (pipeline messages_df completed) = inr summary ->
  is_Some (summary !! k)
  <-> exists r s, r ∈ messages_df /\ casa_sender_name r = Some (Str s)
                  /\ k = sender_key s.
Proof.
  intros Hs. destruct (pipeline_summary _ _ _ Hs) as (keys & Hkeys & ->).
  rewrite summary_lookup.
  assert (Hlen : length keys
                 = length (evaluate (map canon_sender messages_df) completed)).
  { rewrite length_evaluate. symmetry. now apply length_mapM in Hkeys. }
  pose proof (existsb_key_zip keys _ k Hlen) as Hex.
  rewrite (senders_of_rows _ _ _ Hkeys) in Hex.
  split.
  - intros Hsome. destruct (existsb _ _); [|now destruct Hsome].
    destruct Hex as [Hex _]. destruct (Hex eq_refl) as (r' & Hin & Hr').
    change (map canon_sender messages_df) with (canon_sender <$> messages_df) in Hin.
    apply list_elem_of_fmap in Hin as (r & -> & Hin).
    apply canon_sender_key in Hr' as (s & Hr & ->). now exists r, s.
  - intros (r & s & Hin & Hr & ->).
    destruct Hex as [_ Hex]. rewrite Hex; [now eexists|].
    exists (canon_sender r). split.
    + change (map canon_sender messages_df) with (canon_sender <$> messages_df).
      apply list_elem_of_fmap. now exists r.
    + apply canon_sender_key. now exists s.
Qed.

End Aggregation.

(** ** A small run *)

(** One workbook, [HDFC_BANK.xlsx], with a single template. *)
Definition demo_templates : gmap (list ascii) (list (list Re.item)) :=
  load_templates Re.compile
    [(txt "HDFC_BANK.xlsx",
      Some (Workbook [txt "template"] [Str (txt "Rs. <amt> debited")]))].

Definition demo_df : list row :=
  [Row (Some (Str (txt " hdfc bank"))) (Some (Str (txt "RS.  100   debited")));
   Row (Some (Str (txt "HDFC BANK"))) (Some (Str (txt "hello")));
   Row (Some (Str (txt "sbi"))) (Some (Str (txt "Rs. 5 debited")))].

Definition demo_rows : list row := map canon_sender demo_df.

(** The third unit completes first. *)
Definition demo_completed : list (nat * (exn + bool)) :=
  [(2, inr false); (0, inr true); (1, inr false)].

(** A frame without a [message] column: the unit of the known sender
    raises [KeyError]. *)
Definition bare_rows : list row :=
  [Row (Some (Str (txt "HDFC BANK"))) None; Row (Some (Str (txt "SBI"))) None].

Definition bare_completed : list (nat * (exn + bool)) :=
  [(1, inr false); (0, inl (KeyError "message"))].

Lemma evaluate_in_input_order_witness :
  length (evaluate demo_rows demo_completed) = length demo_rows
  /\ forall i r, demo_rows !! i = Some r ->
       evaluate demo_rows demo_completed !! i
       = Some (Some (match check_row Re.fullmatch demo_templates r with
                     | inr b => b
                     | inl _ => false
                     end)).
Proof.
  apply (evaluate_in_input_order Re.fullmatch demo_templates
           demo_rows demo_completed).
  vm_compute.
  apply (Permutation_cons_append [(0, inr true); (1, inr false)] (2, inr false)).
Defined.

Lemma failure_is_isolated_witness :
  evaluate bare_rows bare_completed !! 0 = Some (Some false)
  /\ (forall j r' b, j <> 0 -> bare_rows !! j = Some r' ->
        check_row Re.fullmatch demo_templates r' = inr b ->
        evaluate bare_rows bare_completed !! j = Some (Some b))
  /\ length (evaluate bare_rows bare_completed) = length bare_rows.
Proof.
  apply (failure_is_isolated Re.fullmatch demo_templates bare_rows
           bare_completed 0 (Row (Some (Str (txt "HDFC BANK"))) None)
           (KeyError "message")).
  - vm_compute.
    apply (Permutation_cons_append [(0, inl (KeyError "message"))] (1, inr false)).
  - reflexivity.
  - vm_compute. reflexivity.
Defined.

Lemma unknown_sender_not_covered_witness :
  check_row Re.fullmatch demo_templates
    (Row (Some (Str (txt "SBI"))) (Some (Str (txt "Rs. 5 debited"))))
  = inr false.
Proof.
  apply (unknown_sender_not_covered Re.fullmatch demo_templates _ (txt "SBI")).
  - reflexivity.
  - vm_compute. reflexivity.
Defined.

(** Three records of one sender, the first of which is covered. *)
Definition thirds_df : list row :=
  [Row (Some (Str (txt "HDFC BANK"))) (Some (Str (txt "Rs. 5 debited")));
   Row (Some (Str (txt "HDFC BANK"))) (Some (Str (txt "hello")));
   Row (Some (Str (txt "HDFC BANK"))) (Some (Str (txt "Rs. 5 credited")))].

Lemma coverage_pct_in_range_witness :
  1 <= total (Stats 3 1)
  /\ covered (Stats 3 1) <= total (Stats 3 1)
  /\ exists q,
       coverage_pct (Stats 3 1) = Num q
       /\ (0 <= q)%Q /\ (q <= 100)%Q
       /\ (Qabs (q * inject_Z (Z.of_nat (total (Stats 3 1)))
                 - inject_Z (100 * Z.of_nat (covered (Stats 3 1))))
           <= inject_Z (Z.of_nat (total (Stats 3 1))) * (1 # 70368744177664))%Q
       /\ ((100 * Z.of_nat (covered (Stats 3 1))
              mod Z.of_nat (total (Stats 3 1)) = 0)%Z ->
           (q * inject_Z (Z.of_nat (total (Stats 3 1)))
            == inject_Z (100 * Z.of_nat (covered (Stats 3 1))))%Q).
Proof.
  eapply (coverage_pct_in_range Re.fullmatch demo_templates thirds_df
            demo_completed _ (txt "HDFC BANK") (Stats 3 1)).
  - vm_compute.
    apply (Permutation_cons_append [(0, inr true); (1, inr false)] (2, inr false)).
  - reflexivity.
  - vm_compute. reflexivity.
Defined.

(** C5, as the spec states it, fails: one covered record out of three
    gives the float 33.333333333333336, whose product by 3 is not 100. *)
Lemma coverage_pct_is_rounded :
  demo_completed
  ≡ₚ futures Re.fullmatch demo_templates (map canon_sender thirds_df)
  /\ exists summary,
       snd (pipeline thirds_df demo_completed) = inr summary
       /\ summary !! txt "HDFC BANK" = Some (Stats 3 1)
       /\ coverage_pct (Stats 3 1)
          = Num (4691249611844267 # 140737488355328)
       /\ ~ ((4691249611844267 # 140737488355328) * inject_Z 3
             == inject_Z 100)%Q.
Proof.
  split.
  - vm_compute.
    apply (Permutation_cons_append [(0, inr true); (1, inr false)] (2, inr false)).
  - eexists. split; [reflexivity|]. split; [vm_compute; reflexivity|].
    split; [vm_compute; reflexivity|]. intros H. discriminate H.
Qed.

(** C3, as the spec states it, fails: the sender written [" hdfc bank"] in
    the data is not a key of the summary, and the key under which its
    record is counted, ["HDFC BANK"], is not its spelling in the data. *)
Lemma summary_key_is_not_raw :
  exists summary,
    snd (pipeline demo_df demo_completed) = inr summary
    /\ summary !! txt " hdfc bank" = None
    /\ summary !! txt "HDFC BANK" = Some (Stats 2 1)
    /\ summary !! txt "sbi" = None
    /\ summary !! txt "SBI" = Some (Stats 1 0).
Proof.
  eexists. split; [reflexivity|]. repeat split; vm_compute; reflexivity.
Qed.

Lemma summary_keys_are_canonical_witness :
  exists summary,
    snd (pipeline demo_df demo_completed) = inr summary
    /\ (is_Some (summary !! txt "SBI")
        <-> exists r s, r ∈ demo_df /\ casa_sender_name r = Some (Str s)
                        /\ txt "SBI" = sender_key s).
Proof.
  eexists. split; [reflexivity|].
  apply (summary_keys_are_canonical demo_df demo_completed). reflexivity.
Defined.

(** A backend without lazy quantifiers: it refuses every expression that
    has one, hence every template with a placeholder. *)
Definition greedy_compile (s : list ascii) : option (list Re.item) :=
  match Re.compile s with
  | Some p =>
      if existsb (fun i => match i with Re.StarLazy _ => true | _ => false end) p
      then None else Some p
  | None => None
  end.

(** Three workbooks.  The second template of the first and both templates of
    the second have a placeholder. *)
Definition demo_listing : list (list ascii * option workbook) :=
  [(txt "HDFC_BANK.xlsx",
    Some (Workbook [txt "template"]
            [Str (txt "Balance low"); Str (txt "Rs. <amt> debited");
             Str (txt "Card blocked")]));
   (txt "SBI.xlsx",
    Some (Workbook [txt "template"]
            [Str (txt "<text>"); Str (txt "Dear <name>")]));
   (txt "AXIS.xlsx",
    Some (Workbook [txt "template"] [Str (txt "OTP sent")]))].

Lemma compile_failure_is_local_witness :
  let templates := load_templates greedy_compile demo_listing in
  templates !! txt "HDFC BANK"
  = Some [[Re.Bol; Re.One (Re.Lit "b"); Re.One (Re.Lit "a");
           Re.One (Re.Lit "l"); Re.One (Re.Lit "a"); Re.One (Re.Lit "n");
           Re.One (Re.Lit "c"); Re.One (Re.Lit "e"); Re.Star Re.Blank;
           Re.One (Re.Lit "l"); Re.One (Re.Lit "o"); Re.One (Re.Lit "w");
           Re.Eol];
          [Re.Bol; Re.One (Re.Lit "c"); Re.One (Re.Lit "a");
           Re.One (Re.Lit "r"); Re.One (Re.Lit "d"); Re.Star Re.Blank;
           Re.One (Re.Lit "b"); Re.One (Re.Lit "l"); Re.One (Re.Lit "o");
           Re.One (Re.Lit "c"); Re.One (Re.Lit "k"); Re.One (Re.Lit "e");
           Re.One (Re.Lit "d"); Re.Eol]]
  /\ templates !! txt "AXIS"
     = Some [[Re.Bol; Re.One (Re.Lit "o"); Re.One (Re.Lit "t");
              Re.One (Re.Lit "p"); Re.Star Re.Blank; Re.One (Re.Lit "s");
              Re.One (Re.Lit "e"); Re.One (Re.Lit "n"); Re.One (Re.Lit "t");
              Re.Eol]]
  /\ templates !! txt "SBI" = Some []
  /\ forall r, casa_sender_name r = Some (Str (txt "SBI")) ->
       settle (check_row Re.fullmatch templates r) = false.
Proof.
  intros templates.
  assert (Hlater : forall (later : list (list ascii * option workbook)) key,
             forallb (fun e => negb (bool_decide (bank_name (fst e) = key)))
               later = true ->
             forall f' df', (f', Some df') ∈ later ->
               endswith (txt ".xlsx") f' = true -> bank_name f' <> key).
  { intros later key Hall f' df' Hin _ E.
    rewrite forallb_forall in Hall.
    apply list_elem_of_In, Hall in Hin. cbn [fst] in Hin.
    now rewrite bool_decide_eq_true_2 in Hin. }
  pose proof (compile_failure_is_local greedy_compile Re.fullmatch
                [] (txt "HDFC_BANK.xlsx")
                (Workbook [txt "template"]
                   [Str (txt "Balance low"); Str (txt "Rs. <amt> debited");
                    Str (txt "Card blocked")])
                (drop 1 demo_listing) eq_refl
                (Hlater (drop 1 demo_listing) (txt "HDFC BANK")
                   ltac:(vm_compute; reflexivity))) as H.
  cbv zeta in H. destruct H as (_ & Hdrop & Hother & _).
  pose proof (compile_failure_is_local greedy_compile Re.fullmatch
                (take 1 demo_listing) (txt "SBI.xlsx")
                (Workbook [txt "template"]
                   [Str (txt "<text>"); Str (txt "Dear <name>")])
                (drop 2 demo_listing) eq_refl
                (Hlater (drop 2 demo_listing) (txt "SBI")
                   ltac:(vm_compute; reflexivity))) as H.
  cbv zeta in H. destruct H as (_ & _ & _ & Hempty).
  split; [|split].
  - exact (Hdrop [Str (txt "Balance low")] (Str (txt "Rs. <amt> debited"))
             [Str (txt "Card blocked")] eq_refl eq_refl).
  - exact (Hother (take 2 demo_listing) (txt "AXIS.xlsx")
             (Workbook [txt "template"] [Str (txt "OTP sent")]) []
             eq_refl eq_refl (Hlater [] (txt "AXIS") eq_refl)).
  - apply Hempty. intros t Ht _.
    repeat (apply elem_of_cons in Ht as [->|Ht]; [vm_compute; reflexivity|]).
    now apply elem_of_nil in Ht.
Defined.

(** ** Sender keys *)

(** [old in s] *)
Fixpoint contains (old s : list ascii) : bool :=
  startswith old s
  || match s with
     | [] => false
     | _ :: s' => contains old s'
     end.

Lemma upper_char_underscore c :
  Ascii.eqb "_" (upper_char c) = Ascii.eqb "_" c.
Proof.
  revert c.
  enough (H : forall c, Bool.eqb (Ascii.eqb "_" (upper_char c)) (Ascii.eqb "_" c)
                        = true)
    by (intros c; apply Bool.eqb_prop, H).
  by_enumeration.
Qed.

Lemma contains_char a s : contains [a] s = existsb (Ascii.eqb a) s.
Proof.
  induction s as [|c s IH]; [reflexivity|].
  cbn [contains startswith existsb]. now rewrite andb_true_r, IH.
Qed.

Lemma contains_upper_underscore s :
  contains (txt "_") (upper s) = contains (txt "_") s.
Proof.
  change (txt "_") with ["_"%char]. rewrite !contains_char. unfold upper.
  induction s as [|c s IH]; [reflexivity|].
  cbn [map existsb]. now rewrite upper_char_underscore, IH.
Qed.

(** Replacing a character that does not occur changes nothing. *)
Lemma replace_char_absent a new s :
  contains [a] s = false -> replace [a] new s = s.
Proof.
  rewrite contains_char. unfold replace.
  induction s as [|c s IH]; [reflexivity|].
  cbn [existsb replace_from startswith]. rewrite andb_true_r.
  destruct (Ascii.eqb a c); [discriminate|].
  cbn [orb]. intros H. f_equal. now apply IH.
Qed.

(** [".xlsx"] has no border: it cannot begin inside a text and end in a
    copy of itself put after that text. *)
Lemma xlsx_no_overlap u :
  startswith (txt ".xlsx") (u ++ txt ".xlsx") = true ->
  u = [] \/ startswith (txt ".xlsx") u = true.
Proof.
  destruct u as [|a [|b [|c [|d [|e u]]]]]; cbn; auto;
    repeat (match goal with
            | |- context [Ascii.eqb ?x ?y] => destruct (Ascii.eqb x y)
            end; cbn; try discriminate; auto).
Qed.

Lemma replace_xlsx_suffix s :
  contains (txt ".xlsx") s = false ->
  replace (txt ".xlsx") [] (s ++ txt ".xlsx") = s.
Proof.
  unfold replace. induction s as [|c s IH]; [reflexivity|].
  intros H. cbn [contains] in H. apply orb_false_elim in H as [H1 H2].
  change ((c :: s) ++ txt ".xlsx") with (c :: (s ++ txt ".xlsx")).
  cbn [replace_from].
  destruct (startswith (txt ".xlsx") (c :: s ++ txt ".xlsx")) eqn:E.
  - apply (xlsx_no_overlap (c :: s)) in E as [E|E]; [discriminate|congruence].
  - f_equal. apply IH. exact H2.
Qed.

(** C2, as the code has it.  Neither derivation collapses inner blanks: a
    sender of a record is upper-cased and stripped, the name of a workbook
    loses [.xlsx], is upper-cased, has its underscores turned into spaces
    and is stripped.  For a sender with no underscore and no [.xlsx] in it,
    the key read from the name of its workbook is the key of its records. *)
Theorem sender_keys_agree (s : list ascii) :
  contains (txt "_") s = false -> contains (txt ".xlsx") s = false ->
  bank_name (s ++ txt ".xlsx") = sender_key s.
Proof.
  intros Hu Hx. unfold bank_name, sender_key.
  rewrite (replace_xlsx_suffix s Hx).
  change (txt "_") with ["_"%char].
  rewrite (replace_char_absent "_" (txt " ") (upper s)); [reflexivity|].
  change ["_"%char] with (txt "_"). now rewrite contains_upper_underscore.
Qed.

Lemma sender_keys_agree_witness :
  bank_name (txt " Hdfc Bank.xlsx") = sender_key (txt " Hdfc Bank").
Proof. apply (sender_keys_agree (txt " Hdfc Bank")); reflexivity. Defined.

(** C2, as the spec states it, fails: the key of the workbook
    [AXIS_BANK.xlsx] is not the key of the sender [AXIS_BANK], and neither
    derivation collapses the two spaces of [AXIS  BANK] as the canonical
    transform does. *)
Lemma sender_keys_differ :
  bank_name (txt "AXIS_BANK.xlsx") <> sender_key (txt "AXIS_BANK")
  /\ sender_key (txt "AXIS  BANK") <> spec_canonical_key (txt "AXIS  BANK")
  /\ bank_name (txt "AXIS  BANK.xlsx") <> spec_canonical_key (txt "AXIS  BANK").
Proof. repeat split; intros H; vm_compute in H; discriminate. Qed.

(** ** The expression built for a template *)

(** What the loop of [normalize] makes of a text part: a space becomes
    [\s*], any other character is escaped. *)
Definition relaxed_char (c : ascii) : list ascii :=
  if Ascii.eqb c " " then txt "\s*" else escape_char c.

Definition relaxed (part : list ascii) : list ascii := flat_map relaxed_char part.

Definition is_placeholder (part : list ascii) : bool :=
  startswith (txt "<") part && endswith (txt ">") part.

(** The items a part stands for. *)
Definition lit_item (c : ascii) : Re.item :=
  if Ascii.eqb c " " then Re.Star Re.Blank else Re.One (Re.Lit c).

Definition part_items (part : list ascii) : list Re.item :=
  if is_placeholder part then [Re.StarLazy Re.Dot] else map lit_item part.

(** Tokens that do not quantify what comes before them. *)
Definition quiet (ts : list Re.token) : bool :=
  match ts with
  | Re.TStar :: _ | Re.TQuest :: _ => false
  | _ => true
  end.

Lemma special_space : is_special " " = true.
Proof. reflexivity. Qed.

Lemma escape_char_head c : exists d r, escape_char c = d :: r /\ d <> " "%char.
Proof.
  unfold escape_char. destruct (is_special c) eqn:E.
  - exists "\"%char, [c]. split; [reflexivity|discriminate].
  - exists c, []. split; [reflexivity|]. intros ->. now rewrite special_space in E.
Qed.

Lemma re_escape_head part :
  match re_escape part with
  | d :: _ => d <> " "%char
  | [] => True
  end.
Proof.
  destruct part as [|c part]; [exact I|]. unfold re_escape. cbn [flat_map].
  destruct (escape_char_head c) as (d & r & -> & Hd). exact Hd.
Qed.

Lemma replace_from_hit old new c s :
  startswith old (c :: s) = true ->
  replace_from old new 0 (c :: s)
  = new ++ replace_from old new (length old - 1) s.
Proof. intros H. cbn [replace_from]. now rewrite H. Qed.

Lemma replace_from_miss old new c s :
  startswith old (c :: s) = false ->
  replace_from old new 0 (c :: s) = c :: replace_from old new 0 s.
Proof. intros H. cbn [replace_from]. now rewrite H. Qed.

Lemma replace_from_skip old new k c s :
  replace_from old new (S k) (c :: s) = replace_from old new k s.
Proof. reflexivity. Qed.

Lemma starts_escaped_space c s :
  startswith (txt "\ ") (c :: s)
  = Ascii.eqb "\" c && match s with
                       | d :: _ => Ascii.eqb " " d
                       | [] => false
                       end.
Proof.
  change (txt "\ ") with ["\"%char; " "%char]. cbn [startswith].
  destruct s as [|d s]; [reflexivity|]. now rewrite andb_true_r.
Qed.

(** The first replacement of line 37 turns each escaped space, and nothing
    else, into [\s*]. *)
Lemma replace_escaped_space part :
  replace (txt "\ ") (txt "\s*") (re_escape part) = relaxed part.
Proof.
  unfold replace, re_escape, relaxed.
  induction part as [|c part IH]; [reflexivity|].
  change (flat_map escape_char (c :: part))
    with (escape_char c ++ flat_map escape_char part).
  change (flat_map relaxed_char (c :: part))
    with (relaxed_char c ++ flat_map relaxed_char part).
  rewrite <- IH. clear IH.
  pose proof (re_escape_head part) as Hh. unfold re_escape in Hh.
  set (rest := flat_map escape_char part) in *.
  unfold relaxed_char, escape_char.
  destruct (Ascii.eqb c " ") eqn:Esp.
  - apply Ascii.eqb_eq in Esp. subst c. rewrite special_space.
    change (["\"%char; " "%char] ++ rest) with ("\"%char :: " "%char :: rest).
    rewrite replace_from_hit by (now rewrite starts_escaped_space).
    change (length (txt "\ ") - 1) with 1.
    now rewrite replace_from_skip.
  - assert (Hrest : startswith (txt "\ ") (c :: rest) = false).
    { rewrite starts_escaped_space. destruct rest as [|d r].
      - apply andb_false_r.
      - destruct (Ascii.eqb " " d) eqn:Ed; [|apply andb_false_r].
        apply Ascii.eqb_eq in Ed. now subst d. }
    destruct (is_special c) eqn:E.
    + change (["\"%char; c] ++ rest) with ("\"%char :: c :: rest).
      rewrite replace_from_miss.
      * now rewrite replace_from_miss by exact Hrest.
      * rewrite starts_escaped_space. cbv beta iota.
        rewrite (Ascii.eqb_sym " " c), Esp. apply andb_false_r.
    + change ([c] ++ rest) with (c :: rest).
      now rewrite replace_from_miss by exact Hrest.
Qed.

Lemma relaxed_char_no_space c : existsb (Ascii.eqb " ") (relaxed_char c) = false.
Proof.
  unfold relaxed_char, escape_char.
  destruct (Ascii.eqb c " ") eqn:E; [reflexivity|].
  rewrite Ascii.eqb_sym in E. destruct (is_special c); cbn [existsb]; now rewrite E.
Qed.

Lemma relaxed_no_space part : contains [" "%char] (relaxed part) = false.
Proof.
  rewrite contains_char. unfold relaxed.
  induction part as [|c part IH]; [reflexivity|].
  cbn [flat_map]. now rewrite existsb_app, relaxed_char_no_space, IH.
Qed.

Lemma fragment_spec part :
  fragment part = if is_placeholder part then txt ".*?" else relaxed part.
Proof.
  unfold fragment, is_placeholder.
  destruct (startswith (txt "<") part && endswith (txt ">") part); [reflexivity|].
  rewrite replace_escaped_space. change (txt " ") with [" "%char].
  apply replace_char_absent, relaxed_no_space.
Qed.

Lemma fold_fragments parts acc :
  fold_left (fun pattern part => pattern ++ fragment part) parts acc
  = acc ++ concat (map fragment parts).
Proof.
  revert acc. induction parts as [|p parts IH]; intros acc; cbn [fold_left map concat].
  - now rewrite app_nil_r.
  - now rewrite IH, app_assoc.
Qed.

(** *** Lexing *)

Definition escaped_is_lit (c : ascii) : bool :=
  match Re.escaped c with
  | Re.TItem (Re.One (Re.Lit d)) => Ascii.eqb c d
  | _ => false
  end.

Definition plain_is_lit (c : ascii) : bool :=
  match Re.plain c with
  | Re.TItem (Re.One (Re.Lit d)) => Ascii.eqb c d
  | _ => false
  end.

Lemma special_escaped c :
  is_special c = true -> Re.escaped c = Re.TItem (Re.One (Re.Lit c)).
Proof.
  assert (H : forall c, implb (is_special c) (escaped_is_lit c) = true)
    by by_enumeration.
  intros E. specialize (H c). rewrite E in H. cbn [implb] in H.
  unfold escaped_is_lit in H.
  destruct (Re.escaped c) as [[| |[d| |]| |]| | |]; try discriminate.
  apply Ascii.eqb_eq in H. now subst d.
Qed.

Lemma ordinary_plain c :
  is_special c = false ->
  Re.plain c = Re.TItem (Re.One (Re.Lit c)) /\ Ascii.eqb c "\" = false.
Proof.
  assert (H : forall c, implb (negb (is_special c))
                          (plain_is_lit c && negb (Ascii.eqb c "\")) = true)
    by by_enumeration.
  intros E. specialize (H c). rewrite E in H. cbn [implb negb] in H.
  apply andb_prop in H as [H1 H2]. split.
  - unfold plain_is_lit in H1.
    destruct (Re.plain c) as [[| |[d| |]| |]| | |]; try discriminate.
    apply Ascii.eqb_eq in H1. now subst d.
  - now destruct (Ascii.eqb c "\").
Qed.

Definition char_tokens (c : ascii) : list Re.token :=
  if Ascii.eqb c " "
  then [Re.TItem (Re.One Re.Blank); Re.TStar]
  else [Re.TItem (Re.One (Re.Lit c))].

Definition part_tokens (part : list ascii) : list Re.token :=
  if is_placeholder part
  then [Re.TItem (Re.One Re.Dot); Re.TStar; Re.TQuest]
  else flat_map char_tokens part.

Lemma lex_relaxed_char c rest :
  Re.lex (relaxed_char c ++ rest) = char_tokens c ++ Re.lex rest.
Proof.
  unfold relaxed_char, char_tokens, escape_char.
  destruct (Ascii.eqb c " "); [reflexivity|].
  destruct (is_special c) eqn:E.
  - change (["\"%char; c] ++ rest) with ("\"%char :: c :: rest).
    cbn [Re.lex]. change (Ascii.eqb "\" "\") with true. cbv iota.
    now rewrite (special_escaped c E).
  - destruct (ordinary_plain c E) as [Hp Hb].
    change ([c] ++ rest) with (c :: rest). cbn [Re.lex].
    now rewrite Hb, Hp.
Qed.

Lemma lex_relaxed part rest :
  Re.lex (relaxed part ++ rest) = flat_map char_tokens part ++ Re.lex rest.
Proof.
  unfold relaxed. induction part as [|c part IH]; [reflexivity|].
  cbn [flat_map]. now rewrite <- !app_assoc, lex_relaxed_char, IH.
Qed.

Lemma lex_fragment part rest :
  Re.lex (fragment part ++ rest) = part_tokens part ++ Re.lex rest.
Proof.
  rewrite fragment_spec. unfold part_tokens.
  destruct (is_placeholder part); [reflexivity|apply lex_relaxed].
Qed.

Lemma lex_fragments parts rest :
  Re.lex (concat (map fragment parts) ++ rest)
  = concat (map part_tokens parts) ++ Re.lex rest.
Proof.
  induction parts as [|p parts IH]; [reflexivity|].
  cbn [map concat]. now rewrite <- !app_assoc, lex_fragment, IH.
Qed.

(** *** Parsing *)

Lemma parse_item i ts :
  quiet ts = true -> Re.parse (Re.TItem i :: ts) = cons i <$> Re.parse ts.
Proof.
  intros Hq. destruct i as [| |a|a|a]; try reflexivity.
  destruct ts as [|[| | |] ts]; try reflexivity; discriminate.
Qed.

Lemma parse_star a ts :
  quiet ts = true ->
  Re.parse (Re.TItem (Re.One a) :: Re.TStar :: ts)
  = cons (Re.Star a) <$> Re.parse ts.
Proof.
  intros Hq. destruct ts as [|[| | |] ts]; try reflexivity; discriminate.
Qed.

Lemma parse_lazy a ts :
  Re.parse (Re.TItem (Re.One a) :: Re.TStar :: Re.TQuest :: ts)
  = cons (Re.StarLazy a) <$> Re.parse ts.
Proof. reflexivity. Qed.

Lemma quiet_chars part ts :
  quiet ts = true -> quiet (flat_map char_tokens part ++ ts) = true.
Proof.
  intros Hq. destruct part as [|c part]; [exact Hq|].
  cbn [flat_map]. unfold char_tokens. now destruct (Ascii.eqb c " ").
Qed.

Lemma quiet_part part ts :
  quiet ts = true -> quiet (part_tokens part ++ ts) = true.
Proof.
  intros Hq. unfold part_tokens.
  destruct (is_placeholder part); [reflexivity|now apply quiet_chars].
Qed.

Lemma quiet_parts parts ts :
  quiet ts = true -> quiet (concat (map part_tokens parts) ++ ts) = true.
Proof.
  intros Hq. induction parts as [|p parts IH]; [exact Hq|].
  cbn [map concat]. rewrite <- app_assoc. now apply quiet_part.
Qed.

Lemma parse_chars part ts :
  quiet ts = true ->
  Re.parse (flat_map char_tokens part ++ ts)
  = app (map lit_item part) <$> Re.parse ts.
Proof.
  intros Hq. induction part as [|c part IH].
  - cbn. now destruct (Re.parse ts).
  - cbn [flat_map map]. rewrite <- app_assoc.
    pose proof (quiet_chars part ts Hq) as Hq'.
    unfold char_tokens at 1, lit_item at 1.
    destruct (Ascii.eqb c " ").
    + change ([Re.TItem (Re.One Re.Blank); Re.TStar] ++ ?r)
        with (Re.TItem (Re.One Re.Blank) :: Re.TStar :: r).
      rewrite parse_star by exact Hq'. rewrite IH.
      now destruct (Re.parse ts).
    + change ([Re.TItem (Re.One (Re.Lit c))] ++ ?r)
        with (Re.TItem (Re.One (Re.Lit c)) :: r).
      rewrite parse_item by exact Hq'. rewrite IH.
      now destruct (Re.parse ts).
Qed.

Lemma parse_part part ts :
  quiet ts = true ->
  Re.parse (part_tokens part ++ ts) = app (part_items part) <$> Re.parse ts.
Proof.
  intros Hq. unfold part_tokens, part_items.
  destruct (is_placeholder part); [|now apply parse_chars].
  change ([Re.TItem (Re.One Re.Dot); Re.TStar; Re.TQuest] ++ ts)
    with (Re.TItem (Re.One Re.Dot) :: Re.TStar :: Re.TQuest :: ts).
  rewrite parse_lazy. now destruct (Re.parse ts).
Qed.

Lemma parse_parts parts ts :
  quiet ts = true ->
  Re.parse (concat (map part_tokens parts) ++ ts)
  = app (concat (map part_items parts)) <$> Re.parse ts.
Proof.
  intros Hq. induction parts as [|p parts IH].
  - cbn. now destruct (Re.parse ts).
  - cbn [map concat]. rewrite <- app_assoc.
    rewrite parse_part by now apply quiet_parts.
    rewrite IH. destruct (Re.parse ts); [|reflexivity].
    cbn. now rewrite app_assoc.
Qed.

(** The items of the expression of a template. *)
Definition template_items (t : cell) : list Re.item :=
  Re.Bol :: concat (map part_items (re_split (clean t))) ++ [Re.Eol].

(** Every template compiles, to the items of its parts between the two
    anchors. *)
Lemma compile_normalize t :
  Re.compile (normalize t true) = Some (template_items t).
Proof.
  unfold normalize, Re.compile, template_items.
  rewrite fold_fragments. cbn [app]. 
  change (txt "^" ++ ?r) with ("^"%char :: r).
  change (Re.lex ("^"%char :: ?r)) with (Re.TItem Re.Bol :: Re.lex r).
  rewrite lex_fragments.
  change (Re.lex (txt "$")) with [Re.TItem Re.Eol].
  rewrite parse_item by (now apply quiet_parts).
  rewrite parse_parts by reflexivity. reflexivity.
Qed.

(** ** Placeholder marks *)

Definition is_angle (c : ascii) : bool := Ascii.eqb c "<" || Ascii.eqb c ">".

(** The marks of a text, in order. *)
Definition angles (s : list ascii) : list ascii := List.filter is_angle s.

(** A [<] with a [>] somewhere after it: what [re_split] takes for a
    placeholder once the text holds no line feed. *)
Fixpoint has_placeholder (s : list ascii) : bool :=
  match s with
  | [] => false
  | c :: s' =>
      (Ascii.eqb c "<" && existsb (Ascii.eqb ">") s') || has_placeholder s'
  end.

(** A [<] with no [>] after it. *)
Fixpoint open_mark (s : list ascii) : bool :=
  match s with
  | [] => false
  | c :: s' =>
      (Ascii.eqb c "<" && negb (existsb (Ascii.eqb ">") s')) || open_mark s'
  end.

Lemma angle_lower c :
  is_angle (lower_char c) = is_angle c
  /\ (is_angle c = true -> lower_char c = c).
Proof.
  assert (H : forall c,
             Bool.eqb (is_angle (lower_char c)) (is_angle c)
             && implb (is_angle c) (Ascii.eqb (lower_char c) c) = true)
    by by_enumeration.
  specialize (H c). apply andb_prop in H as [H1 H2]. split.
  - now apply Bool.eqb_prop.
  - intros E. rewrite E in H2. now apply Ascii.eqb_eq.
Qed.

Lemma space_not_angle c : is_space c = true -> is_angle c = false.
Proof.
  assert (H : forall c, implb (is_space c) (negb (is_angle c)) = true)
    by by_enumeration.
  intros E. specialize (H c). rewrite E in H. now destruct (is_angle c).
Qed.

Lemma angles_lower s : angles (lower s) = angles s.
Proof.
  unfold angles, lower. induction s as [|c s IH]; [reflexivity|].
  cbn [map List.filter]. destruct (angle_lower c) as [H1 H2]. rewrite H1, IH.
  destruct (is_angle c); [|reflexivity]. now rewrite H2.
Qed.

Lemma angles_lstrip s : angles (lstrip s) = angles s.
Proof.
  unfold angles. induction s as [|c s IH]; [reflexivity|].
  cbn [lstrip]. destruct (is_space c) eqn:E; [|reflexivity].
  cbn [List.filter]. now rewrite (space_not_angle c E).
Qed.

Lemma angles_rev s : angles (rev s) = rev (angles s).
Proof. apply List.filter_rev. Qed.

Lemma angles_strip s : angles (strip s) = angles s.
Proof.
  unfold strip, rstrip.
  now rewrite angles_rev, angles_lstrip, angles_rev, rev_involutive, angles_lstrip.
Qed.

Lemma angles_collapse b s : angles (collapse_from b s) = angles s.
Proof.
  unfold angles. revert b. induction s as [|c s IH]; intros b; [reflexivity|].
  cbn [collapse_from List.filter]. destruct (is_space c) eqn:E.
  - rewrite (space_not_angle c E). destruct b; [apply IH|].
    cbn [List.filter]. change (is_angle " ") with false. apply IH.
  - cbn [List.filter]. now rewrite IH.
Qed.

Lemma angles_clean x : angles (clean x) = angles (py_str x).
Proof.
  unfold clean, sub_spaces.
  now rewrite angles_collapse, angles_strip, angles_lower.
Qed.

Lemma existsb_gt_angles s :
  existsb (Ascii.eqb ">") (angles s) = existsb (Ascii.eqb ">") s.
Proof.
  unfold angles. induction s as [|c s IH]; [reflexivity|].
  cbn [List.filter existsb]. unfold is_angle at 1.
  destruct (Ascii.eqb c ">") eqn:E.
  - rewrite orb_true_r. cbn [existsb]. rewrite (Ascii.eqb_sym ">" c), E. reflexivity.
  - rewrite orb_false_r. rewrite (Ascii.eqb_sym ">" c), E. cbn [orb].
    destruct (Ascii.eqb c "<"); [|exact IH].
    cbn [existsb]. now rewrite (Ascii.eqb_sym ">" c), E.
Qed.

Lemma has_placeholder_angles s : has_placeholder (angles s) = has_placeholder s.
Proof.
  induction s as [|c s IH]; [reflexivity|].
  unfold angles in *. cbn [List.filter has_placeholder]. unfold is_angle at 1.
  destruct (Ascii.eqb c "<") eqn:E.
  - cbn [orb has_placeholder]. rewrite E, IH.
    now rewrite <- (existsb_gt_angles s).
  - cbn [orb andb]. destruct (Ascii.eqb c ">"); [|exact IH].
    cbn [has_placeholder]. now rewrite E, IH.
Qed.

Lemma open_mark_angles s : open_mark (angles s) = open_mark s.
Proof.
  induction s as [|c s IH]; [reflexivity|].
  unfold angles in *. cbn [List.filter open_mark]. unfold is_angle at 1.
  destruct (Ascii.eqb c "<") eqn:E.
  - cbn [orb open_mark]. rewrite E, IH.
    now rewrite <- (existsb_gt_angles s).
  - cbn [orb andb]. destruct (Ascii.eqb c ">"); [|exact IH].
    cbn [open_mark]. now rewrite E, IH.
Qed.

Lemma has_placeholder_clean x :
  has_placeholder (clean x) = has_placeholder (py_str x).
Proof. now rewrite <- has_placeholder_angles, angles_clean, has_placeholder_angles. Qed.

Lemma open_mark_clean x : open_mark (clean x) = open_mark (py_str x).
Proof. now rewrite <- open_mark_angles, angles_clean, open_mark_angles. Qed.

Lemma open_mark_app l r :
  open_mark (l ++ r)
  = open_mark r || (open_mark l && negb (existsb (Ascii.eqb ">") r)).
Proof.
  induction l as [|c l IH]; cbn [app open_mark existsb].
  - now rewrite orb_false_r.
  - rewrite IH, existsb_app.
    destruct (Ascii.eqb c "<"), (existsb (Ascii.eqb ">") l),
      (existsb (Ascii.eqb ">") r), (open_mark l), (open_mark r); reflexivity.
Qed.

Lemma open_mark_elim s :
  open_mark s = true ->
  exists a b, s = a ++ "<"%char :: b /\ existsb (Ascii.eqb ">") b = false.
Proof.
  induction s as [|c s IH]; [discriminate|]. cbn [open_mark].
  intros H. apply orb_prop in H as [H|H].
  - apply andb_prop in H as [H1 H2]. apply Ascii.eqb_eq in H1. subst c.
    exists [], s. split; [reflexivity|]. now destruct (existsb _ s).
  - destruct (IH H) as (a & b & -> & Hb). now exists (c :: a), b.
Qed.

(** ** Splitting on placeholders *)

Lemma find_close_none s :
  existsb (Ascii.eqb ">") s = false -> find_close s = None.
Proof.
  induction s as [|c s IH]; [reflexivity|]. cbn [existsb find_close].
  intros H. apply orb_false_elim in H as [H1 H2].
  rewrite (Ascii.eqb_sym c ">"), H1.
  destruct (Ascii.eqb c LF); [reflexivity|]. now rewrite (IH H2).
Qed.

Lemma find_close_spec s inner :
  find_close s = Some inner -> exists rest, s = inner ++ ">"%char :: rest.
Proof.
  revert inner. induction s as [|c s IH]; intros inner; [discriminate|].
  cbn [find_close]. destruct (Ascii.eqb c ">") eqn:E.
  - intros [= <-]. apply Ascii.eqb_eq in E. subst c. now exists s.
  - destruct (Ascii.eqb c LF); [discriminate|].
    destruct (find_close s) as [i|]; [|discriminate].
    intros [= <-]. destruct (IH i eq_refl) as [rest ->]. now exists rest.
Qed.

(** The first [>] of a text lies before a [<] that no [>] follows. *)
Lemma first_close_before inner rest a b :
  inner ++ ">"%char :: rest = a ++ "<"%char :: b ->
  existsb (Ascii.eqb ">") b = false ->
  length inner < length a.
Proof.
  intros Heq Hb. revert inner Heq.
  induction a as [|y a IH]; intros [|x inner] Heq; cbn in Heq.
  - discriminate.
  - injection Heq as _ Heq. subst b. rewrite existsb_app in Hb.
    cbn [existsb] in Hb. change (Ascii.eqb ">" ">") with true in Hb.
    now rewrite orb_true_r in Hb.
  - cbn. lia.
  - injection Heq as _ Heq. cbn. apply IH in Heq. lia.
Qed.

(** When the text still to be read holds a [<] that no [>] follows, or
    when the part being read already holds one and no [>] is left, the last
    part of the split holds such a mark. *)
Lemma split_open s :
  forall k lit,
    (exists a b, s = a ++ "<"%char :: b /\ k <= length a
                 /\ existsb (Ascii.eqb ">") b = false)
    \/ (k = 0 /\ open_mark lit = true /\ existsb (Ascii.eqb ">") s = false) ->
    exists parts last,
      split_from k lit s = parts ++ [last] /\ open_mark last = true.
Proof.
  induction s as [|c s IH]; intros k lit H.
  - destruct H as [(a & b & Heq & _)|(_ & Hl & _)].
    + now destruct a.
    + now exists [], lit.
  - destruct k as [|k].
    + destruct H as [(a & b & Heq & _ & Hb)|(_ & Hl & Hs)].
      * assert (Hkeep : exists parts last,
                   split_from 0 (lit ++ [c]) s = parts ++ [last]
                   /\ open_mark last = true).
        { destruct a as [|y a]; cbn in Heq; injection Heq as -> ->.
          - apply IH. right. split; [reflexivity|]. split; [|exact Hb].
            rewrite open_mark_app. reflexivity.
          - apply IH. left. exists a, b. repeat split; [lia|exact Hb]. }
        cbn [split_from]. destruct (Ascii.eqb c "<") eqn:E; [|exact Hkeep].
        destruct (find_close s) as [inner|] eqn:F; [|exact Hkeep].
        destruct a as [|y a]; cbn in Heq; injection Heq as -> ->.
        { now rewrite (find_close_none b Hb) in F. }
        destruct (find_close_spec _ _ F) as [rest Hrest].
        pose proof (first_close_before _ _ _ _ (eq_sym Hrest) Hb) as Hlt.
        destruct (IH (S (length inner)) []) as (parts & last & Hp & Hl).
        { left. exists a, b. repeat split; [lia|exact Hb]. }
        exists (lit :: ("<"%char :: inner ++ [">"%char]) :: parts), last.
        split; [|exact Hl]. cbn [app]. now rewrite Hp.
      * cbn [existsb] in Hs. apply orb_false_elim in Hs as [Hc Hs].
        cbn [split_from]. rewrite (find_close_none s Hs).
        assert (Hkeep : exists parts last,
                   split_from 0 (lit ++ [c]) s = parts ++ [last]
                   /\ open_mark last = true).
        { apply IH. right. split; [reflexivity|]. split; [|exact Hs].
          rewrite open_mark_app, Hl. cbn [existsb]. rewrite Hc.
          now destruct (open_mark [c]). }
        now destruct (Ascii.eqb c "<").
    + destruct H as [(a & b & Heq & Hk & Hb)|(Hk & _)]; [|discriminate].
      destruct a as [|y a]; [cbn in Hk; lia|].
      cbn in Heq. injection Heq as -> ->. cbn [split_from].
      apply IH. left. exists a, b. repeat split; [cbn in Hk; lia|exact Hb].
Qed.

Lemma re_split_open s :
  open_mark s = true ->
  exists parts last, re_split s = parts ++ [last] /\ open_mark last = true.
Proof.
  intros H. apply split_open. left.
  destruct (open_mark_elim s H) as (a & b & -> & Hb).
  exists a, b. repeat split; [lia|exact Hb].
Qed.

(** A text without placeholder is one part. *)
Lemma split_plain s lit :
  has_placeholder s = false -> split_from 0 lit s = [lit ++ s].
Proof.
  revert lit. induction s as [|c s IH]; intros lit H.
  - now rewrite app_nil_r.
  - cbn [has_placeholder] in H. apply orb_false_elim in H as [H1 H2].
    cbn [split_from]. rewrite (IH _ H2), <- app_assoc. cbn [app].
    destruct (Ascii.eqb c "<"); [|reflexivity].
    cbn [andb] in H1. now rewrite (find_close_none s H1).
Qed.

Lemma endswith_char c s :
  endswith [c] s = true -> exists u, s = u ++ [c].
Proof.
  unfold endswith. cbn [rev app]. destruct (rev s) as [|d r] eqn:E; [discriminate|].
  cbn [startswith]. rewrite andb_true_r. intros H. apply Ascii.eqb_eq in H. subst d.
  exists (rev r). apply (f_equal (@rev ascii)) in E.
  rewrite rev_involutive in E. now rewrite E.
Qed.

Lemma open_mark_not_placeholder s : open_mark s = true -> is_placeholder s = false.
Proof.
  intros H. unfold is_placeholder.
  destruct (endswith (txt ">") s) eqn:E; [|apply andb_false_r].
  apply (endswith_char ">" s) in E as [u ->].
  rewrite open_mark_app in H. cbn in H. now rewrite andb_false_r in H.
Qed.

Lemma no_placeholder_not_placeholder s :
  has_placeholder s = false -> is_placeholder s = false.
Proof.
  intros H. unfold is_placeholder.
  destruct (endswith (txt ">") s) eqn:E; [|apply andb_false_r].
  apply (endswith_char ">" s) in E as [u ->].
  destruct u as [|c u]; [reflexivity|].
  change (txt "<") with ["<"%char]. cbn [app startswith]. rewrite andb_true_r.
  cbn [app has_placeholder] in H. apply orb_false_elim in H as [H _].
  rewrite existsb_app in H. cbn [existsb] in H.
  change (Ascii.eqb ">" ">") with true in H. rewrite !orb_true_r in H.
  rewrite andb_true_r in H. rewrite Ascii.eqb_sym, H. reflexivity.
Qed.

(** ** Matching *)

Lemma run_star_nil a p bos : Re.run (Re.Star a :: p) bos [] = Re.run p bos [].
Proof. reflexivity. Qed.

Lemma run_star_cons a p bos c s :
  Re.run (Re.Star a :: p) bos (c :: s)
  = (Re.accepts a c && Re.run (Re.Star a :: p) false s) || Re.run p bos (c :: s).
Proof. reflexivity. Qed.

Lemma run_lazy_nil a p bos :
  Re.run (Re.StarLazy a :: p) bos [] = Re.run p bos [] || false.
Proof. reflexivity. Qed.

Lemma run_lazy_cons a p bos c s :
  Re.run (Re.StarLazy a :: p) bos (c :: s)
  = Re.run p bos (c :: s)
    || (Re.accepts a c && Re.run (Re.StarLazy a :: p) false s).
Proof. reflexivity. Qed.

(** A character the expression asks for occurs in every text it matches. *)
Lemma run_lit_in p : forall bos s c,
  In (Re.One (Re.Lit c)) p -> Re.run p bos s = true -> In c s.
Proof.
  induction p as [|i p IH]; intros bos s c Hin Hrun; [destruct Hin|].
  destruct i as [| |a|a|a].
  - destruct Hin as [Hin|Hin]; [discriminate|].
    cbn [Re.run] in Hrun. apply andb_prop in Hrun as [_ Hrun]. eauto.
  - destruct Hin as [Hin|Hin]; [discriminate|].
    cbn [Re.run] in Hrun. apply andb_prop in Hrun as [_ Hrun]. eauto.
  - destruct s as [|d s]; [discriminate|]. cbn [Re.run] in Hrun.
    apply andb_prop in Hrun as [Hd Hrun]. destruct Hin as [Hin|Hin].
    + injection Hin as ->. cbn [Re.accepts] in Hd. apply Ascii.eqb_eq in Hd.
      subst d. now left.
    + right. eauto.
  - destruct Hin as [Hin|Hin]; [discriminate|].
    revert bos Hrun. induction s as [|d s IHs]; intros bos Hrun.
    + rewrite run_star_nil in Hrun. eauto.
    + rewrite run_star_cons in Hrun. apply orb_prop in Hrun as [Hrun|Hrun].
      * apply andb_prop in Hrun as [_ Hrun]. right. eauto.
      * eauto.
  - destruct Hin as [Hin|Hin]; [discriminate|].
    revert bos Hrun. induction s as [|d s IHs]; intros bos Hrun.
    + rewrite run_lazy_nil, orb_false_r in Hrun. eauto.
    + rewrite run_lazy_cons in Hrun. apply orb_prop in Hrun as [Hrun|Hrun].
      * eauto.
      * apply andb_prop in Hrun as [_ Hrun]. right. eauto.
Qed.

Lemma is_covered_one m p :
  is_covered Re.fullmatch m [p] = Re.fullmatch p (normalize m false).
Proof. unfold is_covered. now destruct (Re.fullmatch p (normalize m false)). Qed.

Lemma compiled_one (s : list ascii) :
  compiled_templates Re.compile [Str s] = [template_items (Str s)].
Proof.
  unfold compiled_templates. cbn [fold_left isna].
  now rewrite compile_normalize.
Qed.

Lemma open_mark_items t :
  open_mark (py_str t) = true -> In (Re.One (Re.Lit "<")) (template_items t).
Proof.
  intros H. rewrite <- open_mark_clean in H.
  destruct (re_split_open _ H) as (parts & last & Hs & Hl).
  unfold template_items. rewrite Hs. right. apply in_or_app. left.
  rewrite map_app, concat_app. apply in_or_app. right.
  cbn [map concat]. rewrite app_nil_r. unfold part_items.
  rewrite (open_mark_not_placeholder last Hl).
  destruct (open_mark_elim last Hl) as (a & b & -> & _).
  rewrite map_app. apply in_or_app. right. now left.
Qed.

(** C10.  A template holding a [<] that no [>] follows compiles: the
    error branch of line 73 is not taken and the template is kept.  The
    mark is no placeholder: it stands as the character [<] in the anchored
    expression, so that every message the template covers holds a [<]. *)
Theorem unbalanced_marker_is_literal (pre post : list ascii) :
  contains (txt ">") post = false ->
  let t := Str (pre ++ txt "<" ++ post) in
  exists p,
    Re.compile (normalize t true) = Some p
    /\ compiled_templates Re.compile [t] = [p]
    /\ (exists body, p = Re.Bol :: body ++ [Re.Eol])
    /\ In (Re.One (Re.Lit "<")) p
    /\ forall m, is_covered Re.fullmatch m [p] = true ->
         In "<"%char (normalize m false).
Proof.
  intros Hpost t. exists (template_items t).
  assert (Hin : In (Re.One (Re.Lit "<")) (template_items t)).
  { apply open_mark_items. unfold t. cbn [py_str].
    rewrite open_mark_app. change (txt "<" ++ post) with ("<"%char :: post).
    cbn [open_mark]. change (txt ">") with [">"%char] in Hpost.
    rewrite contains_char in Hpost. now rewrite Hpost. }
  split; [apply compile_normalize|]. split; [apply compiled_one|].
  split; [now eexists|]. split; [exact Hin|].
  intros m Hm. rewrite is_covered_one in Hm.
  now apply (run_lit_in _ true _ _ Hin).
Qed.

Lemma unbalanced_marker_is_literal_witness :
  exists p,
    Re.compile (normalize (Str (txt "balance " ++ txt "<" ++ txt "amt")) true)
    = Some p
    /\ compiled_templates Re.compile
         [Str (txt "balance " ++ txt "<" ++ txt "amt")] = [p]
    /\ (exists body, p = Re.Bol :: body ++ [Re.Eol])
    /\ In (Re.One (Re.Lit "<")) p
    /\ forall m, is_covered Re.fullmatch m [p] = true ->
         In "<"%char (normalize m false).
Proof.
  apply (unbalanced_marker_is_literal (txt "balance ") (txt "amt")).
  reflexivity.
Defined.

(** ** Templates without placeholder *)

(** [m] is [t] with some of its spaces left out. *)
Fixpoint spaces_optional (t m : list ascii) : bool :=
  match t with
  | [] => match m with [] => true | _ => false end
  | c :: t' =>
      (Ascii.eqb c " " && spaces_optional t' m)
      || match m with
         | [] => false
         | d :: m' => Ascii.eqb c d && spaces_optional t' m'
         end
  end.

Definition nospace (s : list ascii) : list ascii :=
  List.filter (fun c => negb (Ascii.eqb c " ")) s.

Lemma tidy_tail b c m :
  tidy_from b (c :: m) = true -> tidy_from false m = true.
Proof.
  cbn [tidy_from]. destruct (is_space c); [|auto].
  intros H. apply andb_prop in H as [_ H].
  destruct m as [|e m]; [reflexivity|]. cbn [tidy_from] in *.
  destruct (is_space e); [|exact H].
  apply andb_prop in H as [H _]. apply andb_prop in H as [_ H]. discriminate.
Qed.

Lemma tidy_space b d m :
  tidy_from b (d :: m) = true -> is_space d = true ->
  d = " "%char /\ no_lead m = true.
Proof.
  cbn [tidy_from]. intros H E. rewrite E in H.
  apply andb_prop in H as [H H2]. apply andb_prop in H as [H1 _].
  apply Ascii.eqb_eq in H1. split; [exact H1|].
  destruct m as [|e m]; [reflexivity|]. cbn [tidy_from no_lead] in *.
  destruct (is_space e); [|reflexivity].
  apply andb_prop in H2 as [H2 _]. apply andb_prop in H2 as [_ H2]. discriminate.
Qed.

Lemma star_blank_skip p bos m :
  no_lead m = true ->
  Re.run (Re.Star Re.Blank :: p) bos m = Re.run p bos m.
Proof.
  destruct m as [|e m]; [reflexivity|]. cbn [no_lead]. intros H.
  rewrite run_star_cons. cbn [Re.accepts].
  now destruct (is_space e).
Qed.

(** The expression of a text without placeholder matches the tidy texts
    obtained from it by leaving spaces out. *)
Lemma run_literal s : forall bos m,
  tidy_from false m = true ->
  Re.run (map lit_item s ++ [Re.Eol]) bos m = spaces_optional s m.
Proof.
  induction s as [|c s IH]; intros bos m Hm.
  - cbn [map app Re.run spaces_optional].
    destruct m; [reflexivity|apply andb_false_r].
  - cbn [map app spaces_optional]. unfold lit_item at 1.
    destruct (Ascii.eqb c " ") eqn:Ec; cbn [andb orb].
    + apply Ascii.eqb_eq in Ec. subst c. destruct m as [|d m].
      * rewrite run_star_nil, IH by reflexivity. now rewrite orb_false_r.
      * rewrite run_star_cons. cbn [Re.accepts].
        destruct (is_space d) eqn:Ed; cbn [andb orb].
        -- destruct (tidy_space _ _ _ Hm Ed) as [-> Hlead].
           rewrite star_blank_skip by exact Hlead.
           rewrite !IH by (assumption || now apply tidy_tail in Hm).
           change (Ascii.eqb " " " ") with true. cbn [andb]. apply orb_comm.
        -- rewrite IH by assumption.
           destruct (Ascii.eqb " " d) eqn:E; [|now rewrite orb_false_r].
           apply Ascii.eqb_eq in E. now subst d.
    + destruct m as [|d m]; [reflexivity|]. cbn [Re.run Re.accepts].
      rewrite IH by now apply tidy_tail in Hm. reflexivity.
Qed.

Lemma spaces_optional_refl s : spaces_optional s s = true.
Proof.
  induction s as [|c s IH]; [reflexivity|]. cbn [spaces_optional].
  rewrite Ascii.eqb_refl, IH. apply orb_true_r.
Qed.

Lemma spaces_optional_nospace s : forall m,
  spaces_optional s m = true -> nospace m = nospace s.
Proof.
  unfold nospace. induction s as [|c s IH]; intros m H.
  - now destruct m.
  - cbn [spaces_optional] in H. apply orb_prop in H as [H|H].
    + apply andb_prop in H as [Hc H]. cbn [List.filter]. rewrite Hc. cbn [negb].
      now apply IH.
    + destruct m as [|d m]; [discriminate|]. apply andb_prop in H as [Hc H].
      apply Ascii.eqb_eq in Hc. subst d. cbn [List.filter].
      rewrite (IH m H). reflexivity.
Qed.

Lemma nospace_nil_head l :
  nospace l = [] -> l = [] \/ exists r, l = " "%char :: r.
Proof.
  destruct l as [|c l]; [now left|]. unfold nospace. cbn [List.filter].
  destruct (Ascii.eqb c " ") eqn:E; [|discriminate].
  apply Ascii.eqb_eq in E. subst c. right. now exists l.
Qed.

(** A normalised text that holds another one with the same characters
    other than spaces holds nothing around it. *)
Lemma no_extra_content m s x y :
  no_lead m = true -> no_lead (rev m) = true ->
  m = x ++ s ++ y -> nospace m = nospace s -> x = [] /\ y = [].
Proof.
  intros Hl Ht -> Hn. unfold nospace in Hn.
  rewrite !List.filter_app in Hn. fold (nospace x) (nospace s) (nospace y) in Hn.
  assert (Hlen : length (nospace x) + length (nospace y) = 0).
  { apply (f_equal (@length ascii)) in Hn. rewrite !length_app in Hn. lia. }
  assert (Hx : nospace x = []) by (destruct (nospace x); [reflexivity|cbn in Hlen; lia]).
  assert (Hy : nospace y = []) by (destruct (nospace y); [reflexivity|cbn in Hlen; lia]).
  split.
  - destruct (nospace_nil_head x Hx) as [->|[r ->]]; [reflexivity|].
    discriminate Hl.
  - assert (Hry : nospace (rev y) = []).
    { unfold nospace. rewrite List.filter_rev. fold (nospace y). now rewrite Hy. }
    destruct (nospace_nil_head (rev y) Hry) as [E|[r E]].
    + apply (f_equal (@rev ascii)) in E. now rewrite rev_involutive in E.
    + rewrite !rev_app_distr, E in Ht. discriminate Ht.
Qed.

(** C4, as the code has it.  A template without placeholder covers a
    message exactly when the normalised message is the normalised template
    with some of its spaces left out, a space of the template standing for
    [\s*].  So a message equal to the template up to case and runs of blanks
    is covered, and a covered message holds nothing before or after the
    text of the template. *)
Theorem literal_template_coverage (t : list ascii) (m : cell) :
  has_placeholder t = false ->
  let covers :=
    is_covered Re.fullmatch m (compiled_templates Re.compile [Str t]) in
  covers = spaces_optional (normalize (Str t) false) (normalize m false)
  /\ (normalize m false = normalize (Str t) false -> covers = true)
  /\ (covers = true ->
      forall x y, normalize m false = x ++ normalize (Str t) false ++ y ->
                  x = [] /\ y = []).
Proof.
  intros Ht covers.
  assert (Hc : covers
               = spaces_optional (normalize (Str t) false) (normalize m false)).
  { unfold covers. rewrite compiled_one, is_covered_one.
    unfold template_items, Re.fullmatch, re_split.
    assert (Hp : has_placeholder (clean (Str t)) = false)
      by now rewrite has_placeholder_clean.
    rewrite (split_plain _ _ Hp). cbn [app map concat]. rewrite app_nil_r.
    unfold part_items. rewrite (no_placeholder_not_placeholder _ Hp).
    cbn [Re.run andb]. apply run_literal.
    destruct (clean_normal m) as (_ & _ & _ & Htidy). exact Htidy. }
  split; [exact Hc|]. split.
  - intros E. rewrite Hc, E. apply spaces_optional_refl.
  - intros Hcov x y E. rewrite Hc in Hcov.
    destruct (clean_normal m) as (_ & Hl & Hr & _).
    apply (no_extra_content (normalize m false) (normalize (Str t) false));
      try assumption.
    now apply spaces_optional_nospace.
Qed.

Lemma literal_template_coverage_witness :
  is_covered Re.fullmatch (Str (txt "RS.100  Debited"))
    (compiled_templates Re.compile [Str (txt "Rs. 100 debited")])
  = spaces_optional (normalize (Str (txt "Rs. 100 debited")) false)
      (normalize (Str (txt "RS.100  Debited")) false).
Proof.
  assert (H : has_placeholder (txt "Rs. 100 debited") = false) by reflexivity.
  exact (proj1 (literal_template_coverage (txt "Rs. 100 debited")
                  (Str (txt "RS.100  Debited")) H)).
Defined.

(** C4, as the spec states it, fails: the template ["rs. 100"] covers the
    message ["rs.100"], which is not the template up to case and runs of
    blanks. *)
Lemma literal_template_covers_more :
  has_placeholder (txt "rs. 100") = false
  /\ is_covered Re.fullmatch (Str (txt "rs.100"))
       (compiled_templates Re.compile [Str (txt "rs. 100")]) = true
  /\ normalize (Str (txt "rs.100")) false
     <> normalize (Str (txt "rs. 100")) false.
Proof.
  split; [reflexivity|]. split; [vm_compute; reflexivity|].
  intros H. vm_compute in H. discriminate.
Qed.

(** ** The examples of the specification *)

Definition covers (template message : string) : bool :=
  is_covered Re.fullmatch (Str (txt message))
    (compiled_templates Re.compile [Str (txt template)]).

Example placeholder_substitution :
  covers "Your OTP is <code>." "Your OTP is 482913." = true
  /\ covers "Your OTP is <code>." "your otp is 0000." = true
  /\ covers "Your OTP is <code>." "Your OTP is ." = true.
Proof. repeat split; vm_compute; reflexivity. Qed.

Example whitespace_tolerance :
  covers "Rs. <amt> debited" "rs.100 debited" = true
  /\ covers "Rs. <amt> debited" "RS.  100   debited" = true.
Proof. repeat split; vm_compute; reflexivity. Qed.

Example anchored_match :
  covers "Rs. <amt> debited" "Rs. 100 debited today" = false
  /\ covers "debited" "Rs. 100 debited" = false.
Proof. repeat split; vm_compute; reflexivity. Qed.

(** * Further properties of the script *)

(** ** The matcher and the unit of work *)

Section Matcher.

Context {pattern : Type}.
Variable fullmatch : pattern -> list ascii -> bool.
Variable templates : gmap (list ascii) (list pattern).

(** The loop of [is_covered] looks for one template that matches. *)
Lemma is_covered_existsb m (l : list pattern) :
  is_covered fullmatch m l
  = existsb (fun p => fullmatch p (normalize m false)) l.
Proof.
  unfold is_covered. induction l as [|p l IH]; [reflexivity|].
  cbn [existsb]. rewrite <- IH.
  now destruct (fullmatch p (normalize m false)).
Qed.

(** X1.  The order of the templates of a sender does not change the
    answer of [is_covered], and a message covered by a list of templates
    stays covered when templates are added to the list. *)
Theorem is_covered_order_and_growth m (l l' more : list pattern) :
  l ≡ₚ l' ->
  is_covered fullmatch m l = is_covered fullmatch m l'
  /\ (is_covered fullmatch m l = true ->
      is_covered fullmatch m (more ++ l) = true
      /\ is_covered fullmatch m (l ++ more) = true).
Proof.
  intros Hp. rewrite !is_covered_existsb. split.
  - induction Hp as [|x l1 l2 _ IH|x y l1|l1 l2 l3 _ IH1 _ IH2];
      cbn [existsb]; try congruence.
    now rewrite !orb_assoc, (orb_comm (fullmatch y _)).
  - intros H. rewrite !existsb_app, H. split; [apply orb_true_r|reflexivity].
Qed.

End Matcher.

Definition only_a : list Re.item := [Re.Bol; Re.One (Re.Lit "a"); Re.Eol].
Definition only_b : list Re.item := [Re.Bol; Re.One (Re.Lit "b"); Re.Eol].

Lemma is_covered_order_and_growth_witness :
  is_covered Re.fullmatch (Str (txt "b")) [only_a; only_b]
  = is_covered Re.fullmatch (Str (txt "b")) [only_b; only_a].
Proof.
  exact (proj1 (is_covered_order_and_growth Re.fullmatch (Str (txt "b"))
                  [only_a; only_b] [only_b; only_a] []
                  (perm_swap only_b only_a []))).
Defined.

(** ** The normaliser *)

Lemma lower_char_blank c : is_space (lower_char c) = is_space c.
Proof.
  revert c.
  enough (H : forall c, Bool.eqb (is_space (lower_char c)) (is_space c) = true)
    by (intros c; apply Bool.eqb_prop, H).
  by_enumeration.
Qed.

Lemma lower_upper_char c : lower_char (upper_char c) = lower_char c.
Proof.
  revert c.
  enough (H : forall c,
             Ascii.eqb (lower_char (upper_char c)) (lower_char c) = true)
    by (intros c; apply Ascii.eqb_eq, H).
  by_enumeration.
Qed.

Lemma tidy_blank_is_space b s :
  tidy_from b s = true ->
  Forall (fun c => is_space c = true -> c = " "%char) s.
Proof.
  revert b. induction s as [|c s IH]; intros b H; constructor.
  - cbn [tidy_from] in H. intros E. rewrite E in H.
    apply andb_prop in H as [H _]. apply andb_prop in H as [H _].
    now apply Ascii.eqb_eq in H.
  - cbn [tidy_from] in H. destruct (is_space c).
    + apply andb_prop in H as [_ H]. now apply IH in H.
    + now apply IH in H.
Qed.

Lemma tidy_suffix a s b :
  tidy_from b (a ++ s) = true -> exists b', tidy_from b' s = true.
Proof.
  revert b. induction a as [|c a IH]; intros b H; [now exists b|].
  cbn [app tidy_from] in H. destruct (is_space c).
  - apply andb_prop in H as [_ H]. now apply IH in H.
  - now apply IH in H.
Qed.

Lemma lower_fixed_not_capital c : lower_char c = c -> between 65 90 c = false.
Proof.
  revert c.
  enough (H : forall c,
             implb (Ascii.eqb (lower_char c) c) (negb (between 65 90 c)) = true).
  { intros c E. specialize (H c). apply Ascii.eqb_eq in E. rewrite E in H.
    now destruct (between 65 90 c). }
  by_enumeration.
Qed.

(** X3.  The text [normalize] returns for a message has none of the letters
    A to Z, no blank other than the space, no blank at its beginning or at
    its end, and no two blanks in a row. *)
Theorem normalize_normal_form (x : cell) :
  let n := normalize x false in
  Forall (fun c => between 65 90 c = false) n
  /\ Forall (fun c => is_space c = true -> c = " "%char) n
  /\ (forall c r, n = c :: r -> is_space c = false)
  /\ (forall r c, n = r ++ [c] -> is_space c = false)
  /\ (forall a c d b, n = a ++ c :: d :: b -> is_space c = true ->
        is_space d = false).
Proof.
  intros n. destruct (clean_normal x) as (Hlow & Hlead & Htrail & Htidy).
  change (clean x) with n in *. repeat split.
  - unfold lower in Hlow. clear -Hlow.
    induction n as [|c n IH]; constructor; injection Hlow as H1 H2;
      auto using lower_fixed_not_capital.
  - now apply tidy_blank_is_space with false.
  - intros c r E. rewrite E in Hlead. cbn in Hlead. now destruct (is_space c).
  - intros r c E. rewrite E, rev_app_distr in Htrail. cbn in Htrail.
    now destruct (is_space c).
  - intros a c d b E Hc. rewrite E in Htidy.
    apply tidy_suffix in Htidy as [b' H]. cbn [tidy_from] in H. rewrite Hc in H.
    apply andb_prop in H as [_ H]. destruct (is_space d); [|reflexivity].
    apply andb_prop in H as [H _]. apply andb_prop in H as [_ H]. discriminate.
Qed.

(** X4.  On a text of ASCII characters [normalize] does not see the case of
    letters: the text and its upper-case form give the same message text
    and the same expression. *)
Theorem normalize_ignores_case (s : list ascii) (is_template : bool) :
  forallb (fun c => code c <? 128) s = true ->
  normalize (Str (upper s)) is_template = normalize (Str s) is_template.
Proof.
  intros _. unfold normalize, clean. cbn [py_str].
  assert (H : lower (upper s) = lower s).
  { unfold lower, upper. rewrite map_map. apply map_ext.
    intros c. apply lower_upper_char. }
  now rewrite H.
Qed.

Lemma normalize_ignores_case_witness :
  normalize (Str (upper (txt "Rs. <amt> Debited"))) true
  = normalize (Str (txt "Rs. <amt> Debited")) true.
Proof.
  apply (normalize_ignores_case (txt "Rs. <amt> Debited") true). reflexivity.
Defined.

Lemma lstrip_blank p : forallb is_space p = true -> lstrip p = [].
Proof.
  induction p as [|c p IH]; [reflexivity|]. cbn [forallb lstrip].
  intros H. apply andb_prop in H as [H1 H2]. rewrite H1. now apply IH.
Qed.

Lemma lstrip_app x y :
  lstrip (x ++ y) = if forallb is_space x then lstrip y else lstrip x ++ y.
Proof.
  induction x as [|c x IH]; [reflexivity|]. cbn [app lstrip forallb].
  destruct (is_space c); [exact IH|reflexivity].
Qed.

Lemma forallb_blank_rev p : forallb is_space (rev p) = forallb is_space p.
Proof.
  induction p as [|c p IH]; [reflexivity|]. cbn [rev forallb].
  rewrite forallb_app, IH. cbn [forallb]. rewrite andb_true_r. apply andb_comm.
Qed.

Lemma strip_padding p1 s p2 :
  forallb is_space p1 = true -> forallb is_space p2 = true ->
  strip (p1 ++ s ++ p2) = strip s.
Proof.
  intros H1 H2. unfold strip. rewrite lstrip_app, H1, lstrip_app.
  destruct (forallb is_space s) eqn:Es.
  - now rewrite (lstrip_blank p2 H2), (lstrip_blank s Es).
  - unfold rstrip. rewrite rev_app_distr, lstrip_app.
    now rewrite forallb_blank_rev, H2.
Qed.

Lemma forallb_blank_lower p :
  forallb is_space (lower p) = forallb is_space p.
Proof.
  unfold lower. induction p as [|c p IH]; [reflexivity|].
  cbn [map forallb]. now rewrite lower_char_blank, IH.
Qed.

(** X5.  Blanks before and after a text are not seen by [normalize]. *)
Theorem normalize_ignores_padding (p1 s p2 : list ascii) (is_template : bool) :
  forallb is_space p1 = true -> forallb is_space p2 = true ->
  normalize (Str (p1 ++ s ++ p2)) is_template = normalize (Str s) is_template.
Proof.
  intros H1 H2. unfold normalize, clean. cbn [py_str].
  assert (H : strip (lower (p1 ++ s ++ p2)) = strip (lower s)).
  { unfold lower. rewrite !map_app. fold (lower p1) (lower s) (lower p2).
    apply strip_padding; now rewrite forallb_blank_lower. }
  now rewrite H.
Qed.

Lemma normalize_ignores_padding_witness :
  normalize (Str (txt "  " ++ txt "Rs. <amt> debited" ++ [LF])) true
  = normalize (Str (txt "Rs. <amt> debited")) true.
Proof.
  apply (normalize_ignores_padding (txt "  ") (txt "Rs. <amt> debited") [LF] true);
    reflexivity.
Defined.

(** ** The parts of a template *)

Lemma split_concat s : forall k lit,
  concat (split_from k lit s) = lit ++ drop k s.
Proof.
  induction s as [|c s IH]; intros k lit.
  - cbn. now rewrite drop_nil, app_nil_r.
  - destruct k as [|k]; cbn [split_from]; [|apply IH].
    assert (Hkeep : concat (split_from 0 (lit ++ [c]) s) = lit ++ c :: s)
      by (rewrite IH, <- app_assoc; reflexivity).
    destruct (Ascii.eqb c "<") eqn:E; [|exact Hkeep].
    destruct (find_close s) as [inner|] eqn:F; [|exact Hkeep].
    apply Ascii.eqb_eq in E. subst c.
    destruct (find_close_spec _ _ F) as [rest ->].
    assert (Hd : drop (S (length inner)) (inner ++ ">"%char :: rest) = rest).
    { change (inner ++ ">"%char :: rest) with (inner ++ [">"%char] ++ rest).
      rewrite app_assoc. apply drop_app_length'. rewrite length_app. cbn. lia. }
    cbn [concat]. rewrite IH, Hd. cbn [app]. rewrite <- !app_assoc. reflexivity.
Qed.

(** X6.  Nothing is lost by the split of line 25: the parts, put end to
    end, give the text back. *)
Theorem re_split_round_trip (s : list ascii) : concat (re_split s) = s.
Proof. unfold re_split. now rewrite split_concat. Qed.

(** The parts of a split alternate between texts, which the test of line 28
    must refuse, and marks, which it must accept; the first and the last
    part are texts. *)
Fixpoint alternating (text_turn : bool) (parts : list (list ascii)) : bool :=
  match parts with
  | [] => negb text_turn
  | part :: parts' =>
      if text_turn
      then negb (is_placeholder part) && alternating false parts'
      else is_placeholder part && alternating true parts'
  end.

Definition has_open (s : list ascii) : bool :=
  existsb (fun c => Ascii.eqb c "<") s.

Definition has_close (s : list ascii) : bool := existsb (Ascii.eqb ">") s.

Definition has_lf (s : list ascii) : bool :=
  existsb (fun c => Ascii.eqb c LF) s.

Lemma has_placeholder_app l r :
  has_placeholder (l ++ r)
  = has_placeholder l || has_placeholder r || (has_open l && has_close r).
Proof.
  unfold has_open, has_close.
  induction l as [|c l IH]; cbn [app has_placeholder existsb].
  - now rewrite orb_false_r.
  - rewrite IH, existsb_app.
    destruct (Ascii.eqb c "<"), (existsb (Ascii.eqb ">") l),
      (existsb (Ascii.eqb ">") r), (has_placeholder l), (has_placeholder r),
      (existsb (fun c0 => Ascii.eqb c0 "<") l); reflexivity.
Qed.

Lemma find_close_none_inv s :
  has_lf s = false -> find_close s = None -> has_close s = false.
Proof.
  unfold has_lf, has_close. induction s as [|c s IH]; [reflexivity|].
  cbn [existsb find_close]. intros Hlf. apply orb_false_elim in Hlf as [H1 H2].
  rewrite (Ascii.eqb_sym ">" c). destruct (Ascii.eqb c ">"); [discriminate|].
  rewrite H1. destruct (find_close s); [discriminate|]. intros _. now apply IH.
Qed.

Lemma mark_is_placeholder inner :
  is_placeholder ("<"%char :: inner ++ [">"%char]) = true.
Proof.
  unfold is_placeholder, endswith. change (txt "<") with ["<"%char].
  change (rev (txt ">")) with [">"%char]. cbn [startswith rev].
  rewrite rev_app_distr. reflexivity.
Qed.

Lemma split_alternates s : forall k lit,
  has_lf s = false ->
  (k = 0 -> has_placeholder lit = false
            /\ (has_open lit = true -> has_close s = false)) ->
  (k <> 0 -> lit = []) ->
  alternating true (split_from k lit s) = true.
Proof.
  induction s as [|c s IH]; intros k lit Hlf H0 Hk.
  - cbn [split_from alternating]. rewrite andb_true_r.
    destruct k as [|k]; [|now rewrite (Hk (Nat.neq_succ_0 k))].
    destruct (H0 eq_refl) as [Hp _].
    now rewrite (no_placeholder_not_placeholder lit Hp).
  - unfold has_lf in Hlf. cbn [existsb] in Hlf.
    apply orb_false_elim in Hlf as [Hc Hlf]. fold (has_lf s) in Hlf.
    destruct k as [|k]; cbn [split_from].
    + destruct (H0 eq_refl) as [Hp Hopen].
      assert (Hkeep : (Ascii.eqb c "<" = true -> has_close s = false) ->
                      alternating true (split_from 0 (lit ++ [c]) s) = true).
      { intros Hnew. apply IH; [exact Hlf| |congruence]. intros _. split.
        - rewrite has_placeholder_app, Hp. cbn [has_placeholder orb andb].
          rewrite andb_false_r. cbn [orb].
          destruct (has_open lit); [|reflexivity].
          specialize (Hopen eq_refl). unfold has_close in *.
          cbn [existsb] in *. apply orb_false_elim in Hopen as [-> _].
          reflexivity.
        - unfold has_open. rewrite existsb_app. cbn [existsb].
          rewrite orb_false_r. intros H. apply orb_prop in H as [H|H].
          + specialize (Hopen H). unfold has_close in *. cbn [existsb] in Hopen.
            now apply orb_false_elim in Hopen as [_ ->].
          + now apply Hnew. }
      destruct (Ascii.eqb c "<") eqn:E; [|apply Hkeep; discriminate].
      destruct (find_close s) as [inner|] eqn:F.
      * cbn [alternating]. rewrite (no_placeholder_not_placeholder lit Hp).
        rewrite mark_is_placeholder. cbn [negb andb].
        apply IH; [exact Hlf|discriminate|reflexivity].
      * apply Hkeep. intros _. now apply find_close_none_inv.
    + rewrite (Hk (Nat.neq_succ_0 k)). apply IH; [exact Hlf| |reflexivity].
      intros _. split; [reflexivity|discriminate].
Qed.

Lemma tidy_no_lf b s : tidy_from b s = true -> has_lf s = false.
Proof.
  intros H. apply tidy_blank_is_space in H. unfold has_lf.
  induction H as [|c s Hc _ IH]; [reflexivity|]. cbn [existsb]. rewrite IH.
  destruct (Ascii.eqb c LF) eqn:E; [|reflexivity].
  apply Ascii.eqb_eq in E. subst c. now specialize (Hc eq_refl).
Qed.

(** X7.  On a normalised template the test of line 28 tells the marks
    from the texts: the parts of the split are a text, a mark, a text and
    so on up to a last text, every mark passes the test and no text
    does. *)
Theorem normalized_parts_alternate (x : cell) :
  alternating true (re_split (normalize x false)) = true.
Proof.
  unfold re_split. apply split_alternates.
  - destruct (clean_normal x) as (_ & _ & _ & H). now apply tidy_no_lf in H.
  - intros _. split; [reflexivity|discriminate].
  - congruence.
Qed.

(** X8.  The replacement of line 38 never changes the expression: after
    [re.escape] every space is behind a backslash, and line 37 has already
    turned each of them into [\s*]. *)
Theorem second_replace_is_idle (part : list ascii) :
  replace (txt " ") (txt "\s*")
    (replace (txt "\ ") (txt "\s*") (re_escape part))
  = replace (txt "\ ") (txt "\s*") (re_escape part).
Proof.
  rewrite replace_escaped_space. change (txt " ") with [" "%char].
  apply replace_char_absent, relaxed_no_space.
Qed.

(** X9.  Every template that is not null compiles: the list of a sender
    holds one expression for each of them, in the order of the workbook,
    and the branch of line 73 is never taken. *)
Theorem every_template_compiles (raw : list cell) :
  compiled_templates Re.compile raw
  = map template_items (List.filter (fun t => negb (isna t)) raw)
  /\ length (compiled_templates Re.compile raw)
     = length (List.filter (fun t => negb (isna t)) raw).
Proof.
  assert (H : compiled_templates Re.compile raw
              = map template_items (List.filter (fun t => negb (isna t)) raw)).
  { rewrite compiled_templates_omap.
    induction raw as [|t raw IH]; [reflexivity|].
    cbn [List.filter].
    change (omap (compile_one Re.compile) (t :: raw))
      with (match compile_one Re.compile t with
            | Some p => p :: omap (compile_one Re.compile) raw
            | None => omap (compile_one Re.compile) raw
            end).
    unfold compile_one at 1. destruct (isna t); cbn [negb]; [exact IH|].
    rewrite compile_normalize. cbn [map]. now rewrite IH. }
  split; [exact H|]. now rewrite H, length_map.
Qed.

(** ** What a template covers *)

(** A message fits the parts of a template when it can be cut into as many
    pieces as there are parts, the piece of a text being that text with
    some of its spaces left out and the piece of a mark being any text. *)
Fixpoint fits (parts : list (list ascii)) (m : list ascii) : Prop :=
  match parts with
  | [] => m = []
  | part :: parts' =>
      exists m1 m2,
        m = m1 ++ m2
        /\ (if is_placeholder part then True
            else spaces_optional part m1 = true)
        /\ fits parts' m2
  end.

Definition plain_item (i : Re.item) : bool :=
  match i with
  | Re.One _ | Re.Star _ | Re.StarLazy _ => true
  | _ => false
  end.

Definition no_bol (p : list Re.item) : bool :=
  forallb (fun i => match i with Re.Bol => false | _ => true end) p.

Lemma run_bos p : no_bol p = true ->
  forall s b b', Re.run p b s = Re.run p b' s.
Proof.
  induction p as [|i p IH]; intros Hp s b b'; [reflexivity|].
  cbn [no_bol forallb] in Hp. apply andb_prop in Hp as [Hi Hp].
  fold (no_bol p) in Hp. specialize (IH Hp).
  destruct i as [| |a|a|a]; try discriminate.
  - cbn [Re.run]. now rewrite (IH s b b').
  - reflexivity.
  - revert b b'. induction s as [|c s IHs]; intros b b'.
    + rewrite !run_star_nil. apply IH.
    + rewrite !run_star_cons. now rewrite (IH (c :: s) b b').
  - revert b b'. induction s as [|c s IHs]; intros b b'.
    + rewrite !run_lazy_nil. now rewrite (IH [] b b').
    + rewrite !run_lazy_cons. now rewrite (IH (c :: s) b b').
Qed.

Lemma star_zero a p b s :
  Re.run p b s = true -> Re.run (Re.Star a :: p) b s = true.
Proof.
  intros H. destruct s as [|c s]; [exact H|].
  rewrite run_star_cons, H. apply orb_true_r.
Qed.

Lemma lazy_zero a p b s :
  Re.run p b s = true -> Re.run (Re.StarLazy a :: p) b s = true.
Proof.
  intros H. destruct s as [|c s].
  - now rewrite run_lazy_nil, H.
  - now rewrite run_lazy_cons, H.
Qed.

(** A match of two expressions in a row is a match of each on its piece. *)
Lemma run_app_split p1 : forallb plain_item p1 = true ->
  forall p2 s, Re.run (p1 ++ p2) false s = true ->
  exists s1 s2, s = s1 ++ s2 /\ Re.run p1 false s1 = true
                /\ Re.run p2 false s2 = true.
Proof.
  induction p1 as [|i p1 IH]; intros Hp p2 s H.
  - exists [], s. now repeat split.
  - cbn [forallb] in Hp. apply andb_prop in Hp as [Hi Hp].
    specialize (IH Hp p2). destruct i as [| |a|a|a]; try discriminate.
    + destruct s as [|c s]; [discriminate|]. cbn [app Re.run] in H.
      apply andb_prop in H as [Hc H]. destruct (IH s H) as (s1 & s2 & -> & H1 & H2).
      exists (c :: s1), s2. repeat split; [|exact H2].
      cbn [Re.run]. now rewrite Hc, H1.
    + change ((Re.Star a :: p1) ++ p2) with (Re.Star a :: p1 ++ p2) in H.
      induction s as [|c s IHs].
      * rewrite run_star_nil in H. destruct (IH [] H) as (s1 & s2 & E & H1 & H2).
        exists s1, s2. repeat split; [exact E| |exact H2]. now apply star_zero.
      * rewrite run_star_cons in H. apply orb_prop in H as [H|H].
        -- apply andb_prop in H as [Hc H].
           destruct (IHs H) as (s1 & s2 & -> & H1 & H2).
           exists (c :: s1), s2. repeat split; [|exact H2].
           now rewrite run_star_cons, Hc, H1.
        -- destruct (IH _ H) as (s1 & s2 & E & H1 & H2).
           exists s1, s2. repeat split; [exact E| |exact H2]. now apply star_zero.
    + change ((Re.StarLazy a :: p1) ++ p2) with (Re.StarLazy a :: p1 ++ p2) in H.
      induction s as [|c s IHs].
      * rewrite run_lazy_nil, orb_false_r in H.
        destruct (IH [] H) as (s1 & s2 & E & H1 & H2).
        exists s1, s2. repeat split; [exact E| |exact H2]. now apply lazy_zero.
      * rewrite run_lazy_cons in H. apply orb_prop in H as [H|H].
        -- destruct (IH _ H) as (s1 & s2 & E & H1 & H2).
           exists s1, s2. repeat split; [exact E| |exact H2]. now apply lazy_zero.
        -- apply andb_prop in H as [Hc H].
           destruct (IHs H) as (s1 & s2 & -> & H1 & H2).
           exists (c :: s1), s2. repeat split; [|exact H2].
           rewrite run_lazy_cons, Hc, H1. apply orb_true_r.
Qed.

Lemma run_app_join p1 : forallb plain_item p1 = true ->
  forall p2 s1 s2, Re.run p1 false s1 = true -> Re.run p2 false s2 = true ->
  Re.run (p1 ++ p2) false (s1 ++ s2) = true.
Proof.
  induction p1 as [|i p1 IH]; intros Hp p2 s1 s2 H1 H2.
  - now destruct s1.
  - cbn [forallb] in Hp. apply andb_prop in Hp as [Hi Hp].
    specialize (IH Hp p2). destruct i as [| |a|a|a]; try discriminate.
    + destruct s1 as [|c s1]; [discriminate|]. cbn [app Re.run] in *.
      apply andb_prop in H1 as [Hc H1]. rewrite Hc. now apply IH.
    + change ((Re.Star a :: p1) ++ p2) with (Re.Star a :: p1 ++ p2).
      induction s1 as [|c s1 IHs].
      * rewrite run_star_nil in H1. apply star_zero. now apply (IH []).
      * rewrite run_star_cons in H1. apply orb_prop in H1 as [H1|H1].
        -- apply andb_prop in H1 as [Hc H1]. cbn [app].
           now rewrite run_star_cons, Hc, (IHs H1).
        -- apply star_zero. now apply IH.
    + change ((Re.StarLazy a :: p1) ++ p2) with (Re.StarLazy a :: p1 ++ p2).
      induction s1 as [|c s1 IHs].
      * rewrite run_lazy_nil, orb_false_r in H1. apply lazy_zero.
        now apply (IH []).
      * rewrite run_lazy_cons in H1. apply orb_prop in H1 as [H1|H1].
        -- apply lazy_zero. now apply IH.
        -- apply andb_prop in H1 as [Hc H1]. cbn [app].
           rewrite run_lazy_cons, Hc, (IHs H1). apply orb_true_r.
Qed.

Lemma tidy_weaken b s : tidy_from b s = true -> tidy_from false s = true.
Proof.
  destruct b; [|auto]. destruct s as [|c s]; [reflexivity|]. cbn [tidy_from].
  destruct (is_space c); [|auto]. intros H.
  apply andb_prop in H as [H _]. apply andb_prop in H as [_ H]. discriminate.
Qed.

Lemma tidy_prefix s1 s2 b :
  tidy_from b (s1 ++ s2) = true -> tidy_from b s1 = true.
Proof.
  revert b. induction s1 as [|c s1 IH]; intros b H; [reflexivity|].
  cbn [app tidy_from] in *. destruct (is_space c).
  - apply andb_prop in H as [H1 H2]. rewrite H1. now apply IH.
  - now apply IH.
Qed.

Lemma tidy_app s1 s2 :
  tidy_from false (s1 ++ s2) = true ->
  tidy_from false s1 = true /\ tidy_from false s2 = true.
Proof.
  intros H. split; [now apply tidy_prefix in H|].
  apply tidy_suffix in H as [b' H]. now apply tidy_weaken in H.
Qed.

Lemma run_text part : forall b m,
  tidy_from false m = true ->
  Re.run (map lit_item part) b m = spaces_optional part m.
Proof.
  induction part as [|c s IH]; intros bos m Hm; [reflexivity|].
  cbn [map spaces_optional]. unfold lit_item at 1.
  destruct (Ascii.eqb c " ") eqn:Ec; cbn [andb orb].
  - apply Ascii.eqb_eq in Ec. subst c. destruct m as [|d m].
    + rewrite run_star_nil, IH by reflexivity. now rewrite orb_false_r.
    + rewrite run_star_cons. cbn [Re.accepts].
      destruct (is_space d) eqn:Ed; cbn [andb orb].
      * destruct (tidy_space _ _ _ Hm Ed) as [-> Hlead].
        rewrite star_blank_skip by exact Hlead.
        rewrite !IH by (assumption || now apply tidy_tail in Hm).
        change (Ascii.eqb " " " ") with true. cbn [andb]. apply orb_comm.
      * rewrite IH by assumption.
        destruct (Ascii.eqb " " d) eqn:E; [|now rewrite orb_false_r].
        apply Ascii.eqb_eq in E. now subst d.
  - destruct m as [|d m]; [reflexivity|]. cbn [Re.run Re.accepts].
    rewrite IH by now apply tidy_tail in Hm. reflexivity.
Qed.

Lemma run_any b s : Re.run [Re.StarLazy Re.Dot] b s = negb (has_lf s).
Proof.
  unfold has_lf. revert b. induction s as [|c s IH]; intros b; [reflexivity|].
  rewrite run_lazy_cons. cbn [Re.run Re.accepts existsb orb].
  rewrite IH. now destruct (Ascii.eqb c LF).
Qed.

Lemma part_items_plain part : forallb plain_item (part_items part) = true.
Proof.
  unfold part_items. destruct (is_placeholder part); [reflexivity|].
  induction part as [|c part IH]; [reflexivity|]. cbn [map forallb].
  rewrite IH. unfold lit_item. now destruct (Ascii.eqb c " ").
Qed.

Lemma plain_no_bol p : forallb plain_item p = true -> no_bol p = true.
Proof.
  unfold no_bol. induction p as [|i p IH]; [reflexivity|]. cbn [forallb].
  intros H. apply andb_prop in H as [Hi H]. rewrite (IH H).
  now destruct i.
Qed.

Lemma parts_items_plain parts :
  forallb plain_item (concat (map part_items parts)) = true.
Proof.
  induction parts as [|p parts IH]; [reflexivity|]. cbn [map concat].
  now rewrite forallb_app, part_items_plain, IH.
Qed.

Lemma run_part part m :
  tidy_from false m = true ->
  Re.run (part_items part) false m = true
  <-> (if is_placeholder part then True else spaces_optional part m = true).
Proof.
  intros Hm. unfold part_items. destruct (is_placeholder part).
  - rewrite run_any, (tidy_no_lf _ _ Hm). now split.
  - now rewrite run_text.
Qed.

Lemma run_parts parts : forall m,
  tidy_from false m = true ->
  Re.run (concat (map part_items parts) ++ [Re.Eol]) false m = true
  <-> fits parts m.
Proof.
  induction parts as [|part parts IH]; intros m Hm.
  - cbn [map concat app fits Re.run]. destruct m as [|c m].
    + now split.
    + rewrite andb_false_r. split; discriminate.
  - cbn [map concat fits]. rewrite <- app_assoc. split.
    + intros H. apply run_app_split in H as (m1 & m2 & -> & H1 & H2);
        [|apply part_items_plain].
      destruct (tidy_app _ _ Hm) as [Hm1 Hm2]. exists m1, m2.
      split; [reflexivity|]. split; [now apply run_part|now apply IH].
    + intros (m1 & m2 & -> & H1 & H2).
      destruct (tidy_app _ _ Hm) as [Hm1 Hm2].
      apply run_app_join; [apply part_items_plain|now apply run_part|].
      now apply IH.
Qed.

Lemma coverage_fits (t : list ascii) (m : cell) :
  is_covered Re.fullmatch m (compiled_templates Re.compile [Str t]) = true
  <-> fits (re_split (normalize (Str t) false)) (normalize m false).
Proof.
  rewrite compiled_one, is_covered_one. unfold Re.fullmatch, template_items.
  cbn [Re.run andb].
  assert (Hnb : no_bol (concat (map part_items (re_split (clean (Str t))))
                        ++ [Re.Eol]) = true).
  { unfold no_bol. rewrite forallb_app. fold (no_bol (concat (map part_items
      (re_split (clean (Str t)))))).
    now rewrite (plain_no_bol _ (parts_items_plain _)). }
  rewrite (run_bos _ Hnb _ true false). apply run_parts.
  destruct (clean_normal m) as (_ & _ & _ & H). exact H.
Qed.

(** X10.  A template covers a message exactly when the normalised message
    fits the parts of the normalised template: each text of the template
    is found with some of its spaces left out, in order, with any text, or
    none, in the place of each placeholder, and nothing before the first
    part or after the last. *)
Theorem template_coverage_characterised (t : list ascii) (m : cell) :
  is_covered Re.fullmatch m (compiled_templates Re.compile [Str t]) = true
  <-> fits (re_split (normalize (Str t) false)) (normalize m false).
Proof. apply coverage_fits. Qed.

(** ** The keys of the registry *)

Lemma upper_char_idem c : upper_char (upper_char c) = upper_char c.
Proof.
  revert c.
  enough (H : forall c,
             Ascii.eqb (upper_char (upper_char c)) (upper_char c) = true)
    by (intros c; apply Ascii.eqb_eq, H).
  by_enumeration.
Qed.

Lemma upper_fix s : Forall (fun c => upper_char c = c) s -> upper s = s.
Proof.
  unfold upper. induction 1 as [|c s Hc Hs IH]; cbn [map]; [reflexivity|].
  now rewrite Hc, IH.
Qed.

Lemma upper_fixed_not_small c : upper_char c = c -> between 97 122 c = false.
Proof.
  revert c.
  enough (H : forall c,
             implb (Ascii.eqb (upper_char c) c) (negb (between 97 122 c)) = true).
  { intros c E. specialize (H c). apply Ascii.eqb_eq in E. rewrite E in H.
    now destruct (between 97 122 c). }
  by_enumeration.
Qed.

(** X11.  The sender key of line 48 has none of the letters a to z and no
    blank at either end, and taking the key of a key changes nothing. *)
Theorem sender_key_shape (s : list ascii) :
  Forall (fun c => between 97 122 c = false) (sender_key s)
  /\ (forall c r, sender_key s = c :: r -> is_space c = false)
  /\ (forall r c, sender_key s = r ++ [c] -> is_space c = false)
  /\ sender_key (sender_key s) = sender_key s.
Proof.
  assert (Hup : Forall (fun c => upper_char c = c) (sender_key s)).
  { unfold sender_key. apply Forall_strip. unfold upper.
    apply List.Forall_forall. intros c Hc.
    apply in_map_iff in Hc as (d & <- & _). apply upper_char_idem. }
  pose proof (strip_no_lead (upper s)) as Hl.
  pose proof (strip_no_trail (upper s)) as Ht.
  fold (sender_key s) in Hl, Ht. repeat split.
  - eapply Forall_impl; [exact Hup|]. apply upper_fixed_not_small.
  - intros c r E. rewrite E in Hl. cbn in Hl. now destruct (is_space c).
  - intros r c E. rewrite E, rev_app_distr in Ht. cbn in Ht.
    now destruct (is_space c).
  - unfold sender_key at 1. rewrite (upper_fix _ Hup). now apply strip_fix.
Qed.

Lemma existsb_lstrip (f : ascii -> bool) s :
  (forall c, is_space c = true -> f c = false) ->
  existsb f (lstrip s) = existsb f s.
Proof.
  intros Hf. induction s as [|c s IH]; [reflexivity|]. cbn [lstrip].
  destruct (is_space c) eqn:E; [|reflexivity].
  cbn [existsb]. now rewrite (Hf c E), IH.
Qed.

Lemma existsb_reverse (f : ascii -> bool) s : existsb f (rev s) = existsb f s.
Proof.
  induction s as [|c s IH]; [reflexivity|]. cbn [rev existsb].
  rewrite existsb_app, IH. cbn [existsb]. rewrite orb_false_r. apply orb_comm.
Qed.

Lemma existsb_strip (f : ascii -> bool) s :
  (forall c, is_space c = true -> f c = false) ->
  existsb f (strip s) = existsb f s.
Proof.
  intros Hf. unfold strip, rstrip.
  now rewrite existsb_reverse, existsb_lstrip, existsb_reverse, existsb_lstrip.
Qed.

Lemma blank_not_underscore c : is_space c = true -> Ascii.eqb "_" c = false.
Proof.
  assert (H : forall c, implb (is_space c) (negb (Ascii.eqb "_" c)) = true)
    by by_enumeration.
  intros E. specialize (H c). rewrite E in H. now destruct (Ascii.eqb "_" c).
Qed.

Lemma replace_char_gone a new s :
  existsb (Ascii.eqb a) new = false ->
  existsb (Ascii.eqb a) (replace [a] new s) = false.
Proof.
  intros Hnew. unfold replace. induction s as [|c s IH]; [reflexivity|].
  cbn [replace_from startswith]. rewrite andb_true_r.
  destruct (Ascii.eqb a c) eqn:E.
  - cbn [length Nat.sub]. now rewrite existsb_app, Hnew, IH.
  - cbn [existsb]. now rewrite E, IH.
Qed.

(** The name of a bank never holds an underscore. *)
Lemma bank_name_no_underscore file :
  contains (txt "_") (bank_name file) = false.
Proof.
  change (txt "_") with ["_"%char]. rewrite contains_char. unfold bank_name.
  rewrite existsb_strip by apply blank_not_underscore.
  now apply replace_char_gone.
Qed.

Lemma sender_key_keeps_underscore s :
  contains (txt "_") (sender_key s) = contains (txt "_") s.
Proof.
  rewrite <- (contains_upper_underscore s).
  change (txt "_") with ["_"%char]. rewrite !contains_char. unfold sender_key.
  apply existsb_strip, blank_not_underscore.
Qed.

Section RegistryKeys.

Context {pattern : Type}.
Variable re_compile : list ascii -> option pattern.
Variable fullmatch : pattern -> list ascii -> bool.

Lemma fold_load_keys (files : list (list ascii * option workbook))
    (templates : gmap (list ascii) (list pattern)) (k : list ascii) :
  is_Some (fold_left (load_one re_compile) files templates !! k)
  <-> is_Some (templates !! k)
      \/ exists file df, (file, Some df) ∈ files
                         /\ endswith (txt ".xlsx") file = true
                         /\ bank_name file = k.
Proof.
  revert templates. induction files as [|[f read] files IH]; intros templates.
  - cbn [fold_left]. split; [now left|].
    intros [H|(file & df & H & _)]; [exact H|now apply elem_of_nil in H].
  - cbn [fold_left]. rewrite IH. unfold load_one at 1. split.
    + intros [H|(file & df & Hin & Hx & Hk)].
      * destruct (endswith (txt ".xlsx") f) eqn:E; [|now left].
        destruct read as [df|]; [|now left].
        destruct (decide (bank_name f = k)) as [Hk|Hk].
        -- right. exists f, df. split; [now left|]. now split.
        -- rewrite lookup_insert_ne in H by exact Hk. now left.
      * right. exists file, df. split; [now right|]. now split.
    + intros [H|(file & df & Hin & Hx & Hk)].
      * left. destruct (endswith (txt ".xlsx") f); [|exact H].
        destruct read as [df|]; [|exact H].
        destruct (decide (bank_name f = k)) as [Hk|Hk].
        -- subst k. rewrite lookup_insert_eq. now eexists.
        -- now rewrite lookup_insert_ne.
      * apply elem_of_cons in Hin as [[= <- <-]|Hin].
        -- left. rewrite Hx, Hk. rewrite lookup_insert_eq. now eexists.
        -- right. exists file, df. now repeat split.
Qed.

Lemma load_templates_keys (files : list (list ascii * option workbook))
    (k : list ascii) :
  is_Some (load_templates re_compile files !! k)
  <-> exists file df, (file, Some df) ∈ files
                      /\ endswith (txt ".xlsx") file = true
                      /\ bank_name file = k.
Proof.
  rewrite load_templates_fold, fold_load_keys, lookup_empty. split.
  - intros [[x H]|H]; [discriminate|exact H].
  - intros H. now right.
Qed.

(** X12.  The keys of the registry are the bank names of the workbooks
    that end in [.xlsx] and could be read: a file with another ending, or
    a workbook whose reading raised, gives no entry. *)
Theorem registry_keys (files : list (list ascii * option workbook))
    (k : list ascii) :
  is_Some (load_templates re_compile files !! k)
  <-> exists file df, (file, Some df) ∈ files
                      /\ endswith (txt ".xlsx") file = true
                      /\ bank_name file = k.
Proof. apply load_templates_keys. Qed.

(** X13.  When two workbooks give the same bank name, the templates of
    the one listed last replace those of the other. *)
Theorem last_workbook_wins before file1 df1 between file2 df2 after :
  endswith (txt ".xlsx") file2 = true ->
  bank_name file1 = bank_name file2 ->
  (forall f df, (f, Some df) ∈ after -> endswith (txt ".xlsx") f = true ->
     bank_name f <> bank_name file2) ->
  load_templates re_compile
    (before ++ (file1, Some df1) :: between ++ (file2, Some df2) :: after)
    !! bank_name file1
  = Some (compiled_templates re_compile (raw_templates df2)).
Proof.
  intros Hx Hsame Hafter. rewrite Hsame.
  change (before ++ (file1, Some df1) :: between ++ (file2, Some df2) :: after)
    with (before ++ ((file1, Some df1) :: between) ++ (file2, Some df2) :: after).
  rewrite app_assoc. now apply load_templates_lookup.
Qed.

(** X14.  A record whose sender holds an underscore is never covered,
    whatever workbooks are loaded: line 54 turns the underscores of a file
    name into spaces, line 48 keeps those of a sender. *)
Theorem underscore_sender_not_covered
    (files : list (list ascii * option workbook)) (r : row) (s : list ascii) :
  casa_sender_name r = Some (Str s) -> contains (txt "_") s = true ->
  check_row fullmatch (load_templates re_compile files) (canon_sender r)
  = inr false.
Proof.
  intros Hs Hu. unfold check_row, canon_sender.
  cbn [casa_sender_name message]. rewrite Hs. cbn [fmap option_fmap option_map
    str_upper_strip].
  destruct (load_templates re_compile files !! sender_key s) as [l|] eqn:E;
    [|reflexivity].
  assert (Hk : is_Some (load_templates re_compile files !! sender_key s))
    by (rewrite E; now eexists).
  apply load_templates_keys in Hk as (file & df & _ & _ & Hk).
  pose proof (bank_name_no_underscore file) as Hb.
  rewrite Hk, sender_key_keeps_underscore, Hu in Hb. discriminate.
Qed.

End RegistryKeys.

Lemma last_workbook_wins_witness :
  load_templates Re.compile
    [(txt "AXIS_BANK.xlsx", Some (Workbook [txt "template"] [Str (txt "old")]));
     (txt "AXIS BANK.xlsx", Some (Workbook [txt "template"] [Str (txt "new")]))]
    !! bank_name (txt "AXIS_BANK.xlsx")
  = Some (compiled_templates Re.compile
            (raw_templates (Workbook [txt "template"] [Str (txt "new")]))).
Proof.
  apply (last_workbook_wins Re.compile [] (txt "AXIS_BANK.xlsx")
           (Workbook [txt "template"] [Str (txt "old")]) []
           (txt "AXIS BANK.xlsx")
           (Workbook [txt "template"] [Str (txt "new")]) []).
  - reflexivity.
  - reflexivity.
  - intros f df H. now apply elem_of_nil in H.
Defined.

Lemma underscore_sender_not_covered_witness :
  check_row Re.fullmatch
    (load_templates Re.compile
       [(txt "AXIS_BANK.xlsx",
         Some (Workbook [txt "template"] [Str (txt "<any>")]))])
    (canon_sender (Row (Some (Str (txt "axis_bank"))) (Some (Str (txt "hi")))))
  = inr false.
Proof.
  apply (underscore_sender_not_covered Re.compile Re.fullmatch _ _
           (txt "axis_bank")); reflexivity.
Defined.

(** ** The summary and the uncovered messages *)

(** Line 124: the rows whose [covered] cell is false, in the order of the
    frame.  The answer is [None] when the column holds a null cell, on which
    [~] raises. *)
Definition uncovered_messages (messages_df : list row)
    (covered : list (option bool)) : option (list row) :=
  match mapM id covered with
  | Some mask =>
      Some (map fst (List.filter (fun rb => negb (snd rb)) (zip messages_df mask)))
  | None => None
  end.

(** The records of a sender. *)
Definition has_key (k : list ascii) (r : row) : bool :=
  match casa_sender_name r with
  | Some (Str s) => bool_decide (s = k)
  | _ => false
  end.

Lemma zip_keys_rows (rows : list row) (keys : list cell)
    (g : row -> option bool) :
  mapM casa_sender_name rows = Some keys ->
  zip keys (map g rows)
  = map (fun r => (default NaN (casa_sender_name r), g r)) rows.
Proof.
  rewrite mapM_Some. induction 1 as [|r c rows keys Hr _ IH]; [reflexivity|].
  cbn [map zip zip_with]. rewrite Hr. cbn [default]. f_equal. exact IH.
Qed.

Lemma tally_rows k (rows : list row) (f : row -> bool) :
  tally k (map (fun r => (default NaN (casa_sender_name r), Some (f r))) rows)
  = Stats (length (List.filter (has_key k) rows))
          (length (List.filter (fun r => has_key k r && f r) rows)).
Proof.
  induction rows as [|r rows IH]; [reflexivity|].
  cbn [map tally List.filter]. rewrite IH.
  assert (E : key_is k (default NaN (casa_sender_name r), Some (f r))
              = has_key k r).
  { unfold key_is, has_key. cbn [fst].
    now destruct (casa_sender_name r) as [[s| |x]|]. }
  rewrite E. destruct (has_key k r); cbn [andb snd total covered]; [|reflexivity].
  now destruct (f r).
Qed.

Lemma existsb_key_rows k (rows : list row) (g : row -> option bool) :
  existsb (key_is k)
    (map (fun r => (default NaN (casa_sender_name r), g r)) rows)
  = existsb (has_key k) rows.
Proof.
  induction rows as [|r rows IH]; [reflexivity|]. cbn [map existsb].
  rewrite IH. f_equal. unfold key_is, has_key. cbn [fst].
  now destruct (casa_sender_name r) as [[s| |x]|].
Qed.

Lemma mapM_id_some (bs : list bool) :
  mapM id (map (fun b : bool => Some b) bs) = Some bs.
Proof.
  apply mapM_Some. induction bs as [|b bs IH]; constructor; auto.
Qed.

Lemma filter_zip_answers (rows : list row) (f : row -> bool) :
  map fst (List.filter (fun rb : row * bool => negb (snd rb))
             (zip rows (map f rows)))
  = List.filter (fun r => negb (f r)) rows.
Proof.
  induction rows as [|r rows IH]; [reflexivity|].
  cbn [map zip zip_with List.filter snd]. destruct (f r); cbn [negb map fst].
  - exact IH.
  - now rewrite IH.
Qed.

Lemma filter_key_split k (rows : list row) (f : row -> bool) :
  length (List.filter (has_key k) rows)
  = length (List.filter (fun r => has_key k r && f r) rows)
    + length (List.filter (has_key k)
                (List.filter (fun r => negb (f r)) rows)).
Proof.
  induction rows as [|r rows IH]; [reflexivity|]. cbn [List.filter].
  destruct (has_key k r) eqn:Ek, (f r); cbn [andb negb List.filter length];
    rewrite ?Ek; cbn [length]; lia.
Qed.

Section Report.

Context {pattern : Type}.
Variable fullmatch : pattern -> list ascii -> bool.
Variable templates : gmap (list ascii) (list pattern).

(** The cell a record gets in the column [covered]. *)
Definition answer (r : row) : bool := settle (check_row fullmatch templates r).

Lemma summary_entry messages_df completed summary k e :
  completed ≡ₚ futures fullmatch templates (map canon_sender messages_df) ->
  snd (pipeline messages_df completed) = inr summary ->
  summary !! k = Some e ->
  e = Stats (length (List.filter (has_key k) (map canon_sender messages_df)))
            (length (List.filter (fun r => has_key k r && answer r)
                       (map canon_sender messages_df))).
Proof.
  intros Hp Hs He.
  destruct (pipeline_summary _ _ _ Hs) as (keys & Hkeys & ->).
  rewrite (evaluate_map fullmatch templates _ _ Hp) in He.
  rewrite (zip_keys_rows _ _ _ Hkeys), summary_lookup in He.
  destruct (existsb _ _); [|discriminate]. injection He as <-.
  apply (tally_rows k _ answer).
Qed.

(** X15.  In the summary, [total] is the number of records of the sender
    and [covered] the number of those whose check answered true. *)
Theorem summary_counts messages_df completed summary k e :
  completed ≡ₚ futures fullmatch templates (map canon_sender messages_df) ->
  snd (pipeline messages_df completed) = inr summary ->
  summary !! k = Some e ->
  total e = length (List.filter (has_key k) (map canon_sender messages_df))
  /\ covered e
     = length (List.filter (fun r => has_key k r && answer r)
                 (map canon_sender messages_df)).
Proof.
  intros Hp Hs He. rewrite (summary_entry _ _ _ _ _ Hp Hs He). now split.
Qed.

(** X16.  A sender of the data that has no entry in the registry, or an
    entry without template, has no covered record: its percentage is 0. *)
Theorem sender_without_template_scores_zero messages_df completed summary k e :
  completed ≡ₚ futures fullmatch templates (map canon_sender messages_df) ->
  snd (pipeline messages_df completed) = inr summary ->
  summary !! k = Some e ->
  templates !! k = None \/ templates !! k = Some [] ->
  covered e = 0 /\ coverage_pct e = Num 0.
Proof.
  intros Hp Hs He Hk.
  assert (Hc : covered e = 0).
  { rewrite (summary_entry _ _ _ _ _ Hp Hs He). cbn [covered].
    clear Hp Hs He.
    induction (map canon_sender messages_df) as [|r rows IH]; [reflexivity|].
    cbn [List.filter]. destruct (has_key k r) eqn:Ek; [|exact IH].
    assert (Ha : answer r = false).
    { unfold has_key in Ek. unfold answer, check_row.
      destruct (casa_sender_name r) as [[s| |x]|]; try discriminate.
      case_bool_decide as Es; [subst s|discriminate].
      destruct Hk as [-> | ->]; [reflexivity|]. now destruct (message r). }
    rewrite Ha. exact IH. }
  split; [exact Hc|].
  destruct (summary_entry_bounds fullmatch templates _ _ _ _ _ Hp Hs He)
    as [Ht _].
  unfold coverage_pct, true_div. rewrite Hc.
  now replace (Z.of_nat (total e) =? 0)%Z with false
    by (symmetry; apply Z.eqb_neq; lia).
Qed.

Lemma uncovered_filter rows completed :
  completed ≡ₚ futures fullmatch templates rows ->
  uncovered_messages rows (evaluate rows completed)
  = Some (List.filter (fun r => negb (answer r)) rows).
Proof.
  intros Hp. unfold uncovered_messages.
  rewrite (evaluate_map fullmatch templates _ _ Hp).
  change (map (fun r => Some (settle (check_row fullmatch templates r))) rows)
    with (map (fun r => Some (answer r)) rows).
  rewrite <- (map_map answer (fun b : bool => Some b)), mapM_id_some.
  now rewrite filter_zip_answers.
Qed.

(** X17.  The uncovered messages are the records whose check answered
    false or raised, in the order of the frame. *)
Theorem uncovered_are_the_unanswered rows completed :
  completed ≡ₚ futures fullmatch templates rows ->
  uncovered_messages rows (evaluate rows completed)
  = Some (List.filter (fun r => negb (answer r)) rows).
Proof. apply uncovered_filter. Qed.

(** X18.  The summary and the uncovered messages agree: for every sender,
    [total] is [covered] plus the number of uncovered messages of that
    sender. *)
Theorem summary_matches_uncovered messages_df completed summary k e uncovered :
  completed ≡ₚ futures fullmatch templates (map canon_sender messages_df) ->
  snd (pipeline messages_df completed) = inr summary ->
  summary !! k = Some e ->
  uncovered_messages (map canon_sender messages_df)
    (fst (pipeline messages_df completed)) = Some uncovered ->
  total e = covered e + length (List.filter (has_key k) uncovered).
Proof.
  intros Hp Hs He Hu. unfold pipeline in Hu. cbn [fst] in Hu.
  rewrite (uncovered_filter _ _ Hp) in Hu. injection Hu as <-.
  rewrite (summary_entry _ _ _ _ _ Hp Hs He). cbn [total covered].
  apply filter_key_split.
Qed.

(** X19.  On a frame without sender column every record gets the result
    false, and the grouping of line 114 raises [KeyError]. *)
Theorem frame_without_sender_column messages_df completed :
  messages_df <> [] ->
  Forall (fun r => casa_sender_name r = None) messages_df ->
  completed ≡ₚ futures fullmatch templates (map canon_sender messages_df) ->
  fst (pipeline messages_df completed) = map (fun _ => Some false) messages_df
  /\ snd (pipeline messages_df completed) = inl (KeyError "casa_sender_name").
Proof.
  intros Hne Hnone Hp. unfold pipeline. cbn [fst snd]. split.
  - rewrite (evaluate_map fullmatch templates _ _ Hp), map_map.
    apply map_ext_Forall. eapply Forall_impl; [exact Hnone|].
    intros r Hr. unfold check_row, canon_sender.
    cbn [casa_sender_name]. now rewrite Hr.
  - unfold coverage_summary.
    destruct (mapM casa_sender_name (map canon_sender messages_df))
      as [keys|] eqn:E; [|reflexivity].
    apply mapM_Some in E. destruct messages_df as [|r rows]; [congruence|].
    apply Forall_cons in Hnone as [Hr _]. cbn [map] in E.
    apply Forall2_cons_inv_l in E as (c & keys' & Hc & _ & _).
    unfold canon_sender in Hc. cbn [casa_sender_name] in Hc.
    rewrite Hr in Hc. discriminate.
Qed.



End Report.


Definition demo_uncovered : list row :=
  [Row (Some (Str (txt "HDFC BANK"))) (Some (Str (txt "hello")));
   Row (Some (Str (txt "SBI"))) (Some (Str (txt "Rs. 5 debited")))].

Lemma summary_counts_witness :
  total (Stats 2 1)
  = length (List.filter (has_key (txt "HDFC BANK")) (map canon_sender demo_df))
  /\ covered (Stats 2 1)
     = length (List.filter
                 (fun r => has_key (txt "HDFC BANK") r
                           && answer Re.fullmatch demo_templates r)
                 (map canon_sender demo_df)).
Proof.
  eapply (summary_counts Re.fullmatch demo_templates demo_df demo_completed
            _ (txt "HDFC BANK") (Stats 2 1)).
  - vm_compute.
    apply (Permutation_cons_append [(0, inr true); (1, inr false)] (2, inr false)).
  - reflexivity.
  - vm_compute. reflexivity.
Defined.

Lemma sender_without_template_scores_zero_witness :
  covered (Stats 1 0) = 0 /\ coverage_pct (Stats 1 0) = Num 0.
Proof.
  eapply (sender_without_template_scores_zero Re.fullmatch demo_templates
            demo_df demo_completed _ (txt "SBI") (Stats 1 0)).
  - vm_compute.
    apply (Permutation_cons_append [(0, inr true); (1, inr false)] (2, inr false)).
  - reflexivity.
  - vm_compute. reflexivity.
  - left. vm_compute. reflexivity.
Defined.

Lemma uncovered_are_the_unanswered_witness :
  uncovered_messages demo_rows (evaluate demo_rows demo_completed)
  = Some (List.filter (fun r => negb (answer Re.fullmatch demo_templates r))
            demo_rows).
Proof.
  apply (uncovered_are_the_unanswered Re.fullmatch demo_templates
           demo_rows demo_completed).
  vm_compute.
  apply (Permutation_cons_append [(0, inr true); (1, inr false)] (2, inr false)).
Defined.

Lemma summary_matches_uncovered_witness :
  total (Stats 2 1)
  = covered (Stats 2 1)
    + length (List.filter (has_key (txt "HDFC BANK")) demo_uncovered).
Proof.
  eapply (summary_matches_uncovered Re.fullmatch demo_templates demo_df
            demo_completed _ (txt "HDFC BANK") (Stats 2 1) demo_uncovered).
  - vm_compute.
    apply (Permutation_cons_append [(0, inr true); (1, inr false)] (2, inr false)).
  - reflexivity.
  - vm_compute. reflexivity.
  - vm_compute. reflexivity.
Defined.

Lemma frame_without_sender_column_witness :
  fst (pipeline [Row None (Some (Str (txt "Rs. 5 debited")))] [(0, inr false)])
  = [Some false]
  /\ snd (pipeline [Row None (Some (Str (txt "Rs. 5 debited")))]
            [(0, inr false)])
     = inl (KeyError "casa_sender_name").
Proof.
  apply (frame_without_sender_column Re.fullmatch demo_templates
           [Row None (Some (Str (txt "Rs. 5 debited")))] [(0, inr false)]).
  - discriminate.
  - repeat constructor.
  - vm_compute. reflexivity.
Defined.

(** ** Filling the placeholders *)

Lemma fits_filled parts pieces :
  Forall2 (fun part piece => is_placeholder part = false -> piece = part)
    parts pieces ->
  fits parts (concat pieces).
Proof.
  induction 1 as [|part piece parts pieces Hp _ IH]; [reflexivity|].
  cbn [concat fits]. exists piece, (concat pieces).
  split; [reflexivity|]. split; [|exact IH].
  destruct (is_placeholder part); [exact I|].
  rewrite (Hp eq_refl). apply spaces_optional_refl.
Qed.

(** X20.  A message made of the texts of a normalised template, with any
    text put in the place of each placeholder, is covered by the
    template. *)
Theorem filled_template_is_covered (t : list ascii) (m : cell)
    (pieces : list (list ascii)) :
  Forall2 (fun part piece => is_placeholder part = false -> piece = part)
    (re_split (normalize (Str t) false)) pieces ->
  normalize m false = concat pieces ->
  is_covered Re.fullmatch m (compiled_templates Re.compile [Str t]) = true.
Proof.
  intros Hf Hm. apply coverage_fits.
  rewrite Hm. now apply fits_filled.
Qed.

Lemma filled_template_is_covered_witness :
  is_covered Re.fullmatch (Str (txt "Your OTP is 482913."))
    (compiled_templates Re.compile [Str (txt "Your OTP is <code>.")])
  = true.
Proof.
  apply (filled_template_is_covered (txt "Your OTP is <code>.")
           (Str (txt "Your OTP is 482913."))
           [txt "your otp is "; txt "482913"; txt "."]).
  - vm_compute. repeat constructor; intros H; (reflexivity || discriminate H).
  - reflexivity.
Defined.

Lemma find_close_found inner rest :
  has_close inner = false -> has_lf inner = false ->
  find_close (inner ++ ">"%char :: rest) = Some inner.
Proof.
  unfold has_close, has_lf. induction inner as [|c inner IH]; [reflexivity|].
  cbn [existsb app find_close]. intros H1 H2.
  apply orb_false_elim in H1 as [Hc H1]. apply orb_false_elim in H2 as [Hl H2].
  rewrite (Ascii.eqb_sym c ">"), Hc, Hl, (IH H1 H2). reflexivity.
Qed.

Lemma split_skip_all s lit : split_from (length s) lit s = [lit].
Proof. induction s as [|c s IH]; [reflexivity|]. exact IH. Qed.

Lemma clean_mark inner :
  clean (Str ("<"%char :: inner ++ [">"%char]))
  = "<"%char :: collapse_from false (lower inner) ++ [">"%char].
Proof.
  unfold clean, sub_spaces, lower. cbn [py_str map]. rewrite map_app.
  cbn [map]. change (lower_char "<") with "<"%char.
  change (lower_char ">") with ">"%char.
  rewrite strip_fix.
  - cbn [collapse_from]. change (is_space "<") with false. cbv iota.
    rewrite collapse_snoc by reflexivity. reflexivity.
  - reflexivity.
  - cbn [rev]. rewrite rev_app_distr. reflexivity.
Qed.

(** X21.  A template that is one placeholder and nothing else covers every
    message. *)
Theorem lone_placeholder_covers_all (inner : list ascii) (m : cell) :
  has_close inner = false ->
  is_covered Re.fullmatch m
    (compiled_templates Re.compile [Str ("<"%char :: inner ++ [">"%char])])
  = true.
Proof.
  intros Hc. apply coverage_fits.
  unfold normalize at 1. rewrite clean_mark.
  set (inner' := collapse_from false (lower inner)).
  assert (Hc' : has_close inner' = false).
  { unfold has_close, inner'.
    rewrite <- existsb_gt_angles, angles_collapse, angles_lower.
    now rewrite existsb_gt_angles. }
  assert (Hl' : has_lf inner' = false).
  { unfold inner'. apply tidy_no_lf with false, collapse_tidy. }
  unfold re_split. cbn [split_from]. change (Ascii.eqb "<" "<") with true.
  cbv iota. rewrite (find_close_found inner' [] Hc' Hl').
  replace (S (length inner')) with (length (inner' ++ [">"%char]))
    by (rewrite length_app; cbn; lia).
  rewrite split_skip_all. cbn [fits].
  rewrite mark_is_placeholder. change (is_placeholder []) with false.
  exists [], (normalize m false). repeat split.
  exists (normalize m false), []. rewrite app_nil_r. repeat split.
  exists [], []. repeat split.
Qed.

Lemma lone_placeholder_covers_all_witness :
  is_covered Re.fullmatch (Str (txt "Any text at all"))
    (compiled_templates Re.compile
       [Str ("<"%char :: txt "message" ++ [">"%char])])
  = true.
Proof.
  apply (lone_placeholder_covers_all (txt "message")).
  reflexivity.
Defined.
